(** * Chunked persistence of the redux state (packages/gatsby/src/redux/persist.ts)

    A shallow embedding of [readFromCache], [writeToCache] and
    [guessSafeChunkSize], and the properties of the chunked cache format
    that follow from the code.

    Conventions of the embedding.
    - The file system is a finite map from paths to buffers; the only
      directory the module touches is [CWD/.cache], which is assumed to exist
      and to hold files only (a directory there that the chunk pattern
      matches would be listed by [glob] and refused by [unlinkSync]).
    - [v8.serialize], [v8.deserialize], [Buffer#length] and the order in which
      [glob] lists its matches are parameters of the development.
    - [glob] reads its argument as a pattern, and the module hands it [CWD]
      unescaped.  The embedding matches [CWD] literally, which is what
      [glob] does when [CWD] has no pattern character: it follows the code
      for such a [CWD], a condition that results state as [is_literal].
    - [v8.serialize] is embedded as a total function; the code's call
      throws when the encoding exceeds [kMaxLength].  The embedding follows
      the code as long as the buffers fit, a condition that results state
      as [buffers_fit].
    - The type annotations of [readFromCache] are erased at run time.  The
      embedding follows the values as long as they have the annotated
      shape, and stops with [IllTyped] where they have not.
    - JavaScript numbers occur in the module as non-negative integers below
      2^53 and as the results of at most one division followed by
      [Math.floor] or [Math.ceil]; for such operands the double-precision
      result is the exact integer quotient, so they are embedded as [Z],
      extended with [Infinity] and [NaN] for the divisions by zero.
    - The two unbounded loops take a fuel argument; running out of fuel is
      reported as [Diverged]. *)

From Stdlib Require Import ZArith String Ascii List Lia.
From stdpp Require Import base tactics option numbers list sorting gmap fin_maps
  strings pretty.

Local Open Scope Z_scope.

(** ** JavaScript numbers, as far as the module uses them *)

Inductive JsNum : Type :=
  | Num (z : Z)
  | Infinity
  | NaN.

(** [Math.floor(a / b)] for integers [a > 0] and [b >= 0]. *)
Definition Math_floor_div (a b : Z) : JsNum :=
  if b =? 0 then Infinity else Num (a / b).

(** Ceiling of the quotient of two integers, [b <> 0]. *)
Definition Z_ceil_div (a b : Z) : Z := - ((- a) / b).

(** [Math.ceil(a / b)] for an integer [a >= 0] and [b] a result of
    [Math_floor_div]. *)
Definition Math_ceil_div (a : Z) (b : JsNum) : JsNum :=
  match b with
  | Num c => if c =? 0 then (if a =? 0 then NaN else Infinity)
             else Num (Z_ceil_div a c)
  | Infinity => Num 0
  | NaN => NaN
  end.

(** [i < n] for an integer [i]. *)
Definition js_lt (i : Z) (n : JsNum) : bool :=
  match n with
  | Num z => i <? z
  | Infinity => true
  | NaN => false
  end.

(** ** Arrays *)

(** The relative index of [Array.prototype.slice]: negative indices count
    from the end, and the result is clamped to [0 .. len]. *)
Definition slice_index (len x : Z) : Z :=
  if x <? 0 then Z.max (len + x) 0 else Z.min x len.

(** [l.slice(start, end)] for integer arguments. *)
Definition slice {A : Type} (l : list A) (start stop : Z) : list A :=
  let len := Z.of_nat (length l) in
  let k := slice_index len start in
  let final := slice_index len stop in
  take (Z.to_nat (final - k)) (drop (Z.to_nat k) l).

(** [values.slice(i * chunkSize, i * chunkSize + chunkSize)].  When
    [chunkSize] is [Infinity] or [NaN] both bounds are [Infinity] or [NaN],
    and [slice] returns the empty array. *)
Definition chunkSlice {A : Type} (values : list A) (i : Z) (chunkSize : JsNum)
  : list A :=
  match chunkSize with
  | Num c => slice values (i * c) (i * c + c)
  | _ => []
  end.

(** ** [Map<string, V>]

    A JavaScript [Map] keeps its entries in insertion order, with pairwise
    distinct keys. *)

Module JsMap.
Section Ops.
Context {V : Type}.

(** [map.set(k, v)]: an existing key keeps its position. *)
Fixpoint set (k : string) (v : V) (m : list (string * V)) : list (string * V) :=
  match m with
  | [] => [(k, v)]
  | (k', v') :: m' =>
      if decide (k = k') then (k, v) :: m' else (k', v') :: set k v m'
  end.

(** [map.get(k)] *)
Fixpoint get (k : string) (m : list (string * V)) : option V :=
  match m with
  | [] => None
  | (k', v') :: m' => if decide (k = k') then Some v' else get k m'
  end.

(** [new Map(entries)] *)
Definition of_entries (entries : list (string * V)) : list (string * V) :=
  foldl (λ m e, set e.1 e.2 m) [] entries.

(** [[...map.entries()]] *)
Definition entries (m : list (string * V)) : list (string * V) := m.

(** The mapping a [Map] denotes. *)
Definition view (m : list (string * V)) : gmap string V := list_to_map m.
End Ops.
End JsMap.

(** ** Paths and glob patterns *)

Fixpoint strip_prefix (p s : string) : option string :=
  match p with
  | EmptyString => Some s
  | String a p' =>
      match s with
      | EmptyString => None
      | String b s' => if decide (a = b) then strip_prefix p' s' else None
      end
  end.

Fixpoint has_slash (s : string) : bool :=
  match s with
  | EmptyString => false
  | String a s' => if decide (a = "/"%char) then true else has_slash s'
  end.

(** The characters that [glob] does not read literally: the wildcards,
    the brackets of classes, braces and extended patterns with their
    operators, the escape (the backslash, character 092), and the marks of
    negation and comment. *)
Definition glob_magic : list ascii :=
  ["*"; "?"; "["; "]"; "{"; "}"; "("; ")"; "|"; "!"; "+"; "@"; "092"; "#"]%char.

(** A path that, read as a pattern, matches itself and nothing else. *)
Fixpoint is_literal (s : string) : bool :=
  match s with
  | EmptyString => true
  | String a s' => negb (bool_decide (a ∈ glob_magic)) && is_literal s'
  end.

(** Whether [name] matches the pattern [prefix*], for a [prefix] that
    [is_literal] and whose last path segment is non-empty: [*] matches any
    run of characters other than the path separator.  For a [prefix] with
    pattern characters [glob] matches other names than this function says. *)
Definition matches_star (prefix name : string) : bool :=
  match strip_prefix prefix name with
  | Some r => negb (has_slash r)
  | None => false
  end.

(** ** Outcomes of a call *)

Inductive Error : Type :=
  | ENOENT (path : string)
  | DecodeError.

(** [IllTyped]: a value has not the shape that its type annotation
    declares.  The code does not check this and goes on with the value as
    it is; the embedding does not follow it there, and [IllTyped] says
    nothing about what the code does. *)
Inductive Outcome (A : Type) : Type :=
  | Returned (a : A)
  | Threw (e : Error)
  | Diverged
  | IllTyped.
Arguments Returned {A} a.
Arguments Threw {A} e.
Arguments Diverged {A}.
Arguments IllTyped {A}.

Definition outcome_bind {A B : Type} (f : A → Outcome B) (o : Outcome A)
  : Outcome B :=
  match o with
  | Returned a => f a
  | Threw e => Threw e
  | Diverged => Diverged
  | IllTyped => IllTyped
  end.

#[global] Instance outcome_ret : MRet Outcome := @Returned.
#[global] Instance outcome_mbind : MBind Outcome := @outcome_bind.

(** The target ceiling of [guessSafeChunkSize], as the code computes it. *)
Definition TARGET_BYTES : Z := 150 * 1024 * 1024 * 1024.

(** "Max size of a Buffer is 2gb": [buffer.constants.MAX_LENGTH] on the
    64-bit platforms the code assumes. *)
Definition kMaxLength : Z := 2 ^ 31 - 1.

Section Model.
(** [IReduxNode]; the fields of [ICachedReduxState] other than [nodes];
    Node's [Buffer]. *)
Context {IReduxNode Rest Buffer : Type}.

Definition Entry : Type := string * IReduxNode.

Record ICachedReduxState : Type := mkState {
  nodes : option (list Entry);   (* nodes?: Map<string, IReduxNode> *)
  rest : Rest
}.

Definition set_nodes (v : option (list Entry)) (s : ICachedReduxState)
  : ICachedReduxState :=
  {| nodes := v; rest := rest s |}.

(** The values the module hands to [v8.serialize]. *)
Inductive JsValue : Type :=
  | VState (s : ICachedReduxState)
  | VEntries (l : list Entry)
  | VEntry (e : Entry)
  | VUndefined.

(** What the module takes from its environment. *)
Class Runtime : Type := mkRuntime {
  (** [process.cwd()] at load time *)
  CWD : string;
  (** [v8.serialize] *)
  v8_serialize : JsValue → Buffer;
  (** [v8.deserialize]; [None] when it throws *)
  v8_deserialize : Buffer → option JsValue;
  (** [buf.length] *)
  byteLength : Buffer → Z;
  (** the order in which [glob] returns its matches *)
  alphasort : list string → list string
}.

Context {RT : Runtime}.

Definition file : string := CWD +:+ "/.cache/redux.state".
Definition chunkFilePrefix : string := CWD +:+ "/.cache/redux.node.state_".

(** [`${chunkFilePrefix()}${i}`] *)
Definition chunkFile (i : Z) : string := chunkFilePrefix +:+ pretty i.

(** *** The world: the files on the disk and the actions performed so far *)

Inductive Event : Type :=
  | Unlink (path : string)
  | WriteFile (path : string) (data : Buffer)
  | SetNodes (v : option (list Entry))        (* contents.nodes = v *)
  | CallGuessSafeChunkSize (values : list Entry).

(** The disk maps the paths of the regular files to their contents; it
    has no directories other than those that the paths imply. *)
Record World : Type := mkWorld {
  disk : gmap string Buffer;
  log : list Event
}.

Definition emit (e : Event) (w : World) : World :=
  {| disk := disk w; log := log w ++ [e] |}.

(** [globSync(prefix + "*")] *)
Definition globSync (prefix : string) (w : World) : list string :=
  alphasort
    (filter (λ name, matches_star prefix name = true) (map_to_list (disk w)).*1).

(** [unlinkSync(path)], on a path that [globSync] has just listed. *)
Definition unlinkSync (path : string) (w : World) : World :=
  emit (Unlink path) {| disk := delete path (disk w); log := log w |}.

(** [files.forEach(file => unlinkSync(file))] *)
Definition unlinkAll (files : list string) (w : World) : World :=
  foldl (λ w file, unlinkSync file w) w files.

Definition writeFileSync (path : string) (data : Buffer) (w : World) : World :=
  emit (WriteFile path data) {| disk := <[path := data]> (disk w); log := log w |}.

Definition readFileSync (path : string) (w : World) : Outcome Buffer :=
  match disk w !! path with
  | Some b => Returned b
  | None => Threw (ENOENT path)
  end.

Definition deserialize (b : Buffer) : Outcome JsValue :=
  match v8_deserialize b with
  | Some v => Returned v
  | None => Threw DecodeError
  end.

(** *** [guessSafeChunkSize] *)

(** [v8.serialize(values[i]).length]; [values[i]] is [undefined] outside
    the array. *)
Definition sampleSize (values : list Entry) (i : Z) : Z :=
  byteLength (v8_serialize
    (match (if i <? 0 then None else values !! Z.to_nat i) with
     | Some e => VEntry e
     | None => VUndefined
     end)).

(** The loop
    [for (let i = 0; i < valueCount; i += Math.floor(valueCount / 11))],
    entered with the given [i] and [maxSize]; its result is the final
    [maxSize]. *)
Fixpoint sampleLoop (fuel : nat) (values : list Entry) (i maxSize : Z)
  : option Z :=
  let valueCount := Z.of_nat (length values) in
  if i <? valueCount then
    match fuel with
    | O => None
    | S fuel' =>
        let size := sampleSize values i in
        sampleLoop fuel' values (i + valueCount / 11) (Z.max size maxSize)
    end
  else Some maxSize.

Definition guessSafeChunkSize (fuel : nat) (values : list Entry)
  : option JsNum :=
  match sampleLoop fuel values 0 0 with
  | Some maxSize => Some (Math_floor_div TARGET_BYTES maxSize)
  | None => None
  end.

(** The indices at which the loop of [guessSafeChunkSize] takes its
    samples when its stride [valueCount / 11] is not zero, and the largest
    encoded size among these samples. *)
Definition sampleIndices (valueCount : Z) : list Z :=
  (λ k, k * (valueCount / 11)) <$>
    seqZ 0 (Z_ceil_div valueCount (valueCount / 11)).

Definition maxObservedSize (values : list Entry) : Z :=
  foldl (λ maxSize i, Z.max (sampleSize values i) maxSize) 0
    (sampleIndices (Z.of_nat (length values))).

(** *** [writeToCache] *)

(** The loop [for (let i = 0; i < chunks; ++i)], entered with the given [i]. *)
Fixpoint writeChunks (fuel : nat) (values : list Entry) (chunkSize chunks : JsNum)
  (i : Z) (w : World) : Outcome unit * World :=
  if js_lt i chunks then
    match fuel with
    | O => (Diverged, w)
    | S fuel' =>
        writeChunks fuel' values chunkSize chunks (i + 1)
          (writeFileSync (chunkFile i)
             (v8_serialize (VEntries (chunkSlice values i chunkSize))) w)
    end
  else (Returned (), w).

(** [contents.nodes = v] *)
Definition assignNodes (v : option (list Entry))
  (cw : ICachedReduxState * World) : ICachedReduxState * World :=
  (set_nodes v cw.1, emit (SetNodes v) cw.2).

(** The result is the outcome of the call, the object [contents] refers to
    as the call leaves it, and the world. *)
Definition writeToCache (fuel : nat) (contents : ICachedReduxState) (w : World)
  : Outcome unit * ICachedReduxState * World :=
  let w := unlinkAll (globSync chunkFilePrefix w) w in
  let map := nodes contents in
  let '(contents, w) := assignNodes None (contents, w) in
  let w := writeFileSync file (v8_serialize (VState contents)) w in
  let '(contents, w) := assignNodes map (contents, w) in
  match map with
  | Some m =>
      let values := JsMap.entries m in
      let w := emit (CallGuessSafeChunkSize values) w in
      match guessSafeChunkSize fuel values with
      | Some chunkSize =>
          let chunks := Math_ceil_div (Z.of_nat (length values)) chunkSize in
          let '(o, w) := writeChunks fuel values chunkSize chunks 0 w in
          (o, contents, w)
      | None => (Diverged, contents, w)
      end
  | None => (Returned (), contents, w)
  end.

(** The world after lines 36-44 of [writeToCache]: the chunk files of the
    previous run are removed, [contents] is written to the core file
    without its nodes, and the nodes are put back. *)
Definition prepare (contents : ICachedReduxState) (w : World) : World :=
  emit (SetNodes (nodes contents))
    (writeFileSync file (v8_serialize (VState (set_nodes None contents)))
       (emit (SetNodes None) (unlinkAll (globSync chunkFilePrefix w) w))).

(** Writing the chunks with the given indices, one after the other. *)
Definition chunkData (values : list Entry) (chunkSize : JsNum) (i : Z) : Buffer :=
  v8_serialize (VEntries (chunkSlice values i chunkSize)).

Definition storeChunks (values : list Entry) (chunkSize : JsNum)
  (indices : list Z) (w : World) : World :=
  foldl (λ w i, writeFileSync (chunkFile i) (chunkData values chunkSize i) w)
    w indices.

(** *** [readFromCache] *)

(** The annotations [obj: ICachedReduxState] and
    [nodes: [string, IReduxNode][]] of [readFromCache] are not checked when
    it runs: the code uses whatever [v8.deserialize] has returned.  The
    embedding follows a value of the annotated shape; for any other it
    stops with [IllTyped], which leaves open what the code does. *)
Definition asState (v : JsValue) : Outcome ICachedReduxState :=
  match v with
  | VState s => Returned s
  | _ => IllTyped
  end.

Definition asEntries (v : JsValue) : Outcome (list Entry) :=
  match v with
  | VEntries l => Returned l
  | _ => IllTyped
  end.

(** [v8.deserialize(readFileSync(file))], at the type the caller expects. *)
Definition readChunk (w : World) (path : string) : Outcome (list Entry) :=
  b ← readFileSync path w; v ← deserialize b; asEntries v.

Fixpoint mapOutcome {A B : Type} (f : A → Outcome B) (l : list A)
  : Outcome (list B) :=
  match l with
  | [] => Returned []
  | x :: l' => y ← f x; ys ← mapOutcome f l'; Returned (y :: ys)
  end.

Definition readFromCache (w : World) : Outcome ICachedReduxState :=
  b ← readFileSync file w;
  v ← deserialize b;
  obj ← asState v;
  chunks ← mapOutcome (readChunk w) (globSync chunkFilePrefix w);
  let nodes := concat chunks in
  if decide (length chunks ≠ 0%nat)
  then Returned (set_nodes (Some (JsMap.of_entries nodes)) obj)
  else Returned obj.

End Model.

Arguments ICachedReduxState : clear implicits.
Arguments JsValue : clear implicits.
Arguments Runtime : clear implicits.
Arguments Event : clear implicits.
Arguments World : clear implicits.
Arguments Entry : clear implicits.

(** ** Reading the log of a call *)

Section Log.
Context {IReduxNode Rest Buffer : Type} {RT : Runtime IReduxNode Rest Buffer}.

(** The actions performed between two worlds. *)
Definition events_since (w w' : World IReduxNode Buffer)
  : list (Event IReduxNode Buffer) :=
  drop (length (log w)) (log w').

(** The arguments of the calls of [guessSafeChunkSize]. *)
Definition estimator_calls (events : list (Event IReduxNode Buffer))
  : list (list (Entry IReduxNode)) :=
  omap (λ e, match e with CallGuessSafeChunkSize values => Some values | _ => None end)
    events.

(** The paths of the chunk files written. *)
Definition chunk_writes (events : list (Event IReduxNode Buffer)) : list string :=
  omap (λ e, match e with
             | WriteFile path _ =>
                 if matches_star chunkFilePrefix path then Some path else None
             | _ => None
             end) events.

(** The steps of the write path. *)
Definition is_unlink (e : Event IReduxNode Buffer) : bool :=
  match e with Unlink _ => true | _ => false end.

Definition is_detach (e : Event IReduxNode Buffer) : bool :=
  match e with SetNodes None => true | _ => false end.

Definition is_write_core (e : Event IReduxNode Buffer) : bool :=
  match e with WriteFile path _ => bool_decide (path = file) | _ => false end.

Definition is_chunk_step (e : Event IReduxNode Buffer) : bool :=
  match e with
  | WriteFile path _ => matches_star chunkFilePrefix path
  | CallGuessSafeChunkSize _ => true
  | _ => false
  end.

Definition is_reattach (e : Event IReduxNode Buffer) : bool :=
  match e with SetNodes _ => true | _ => false end.

Inductive Step : Type :=
  | RemoveStale | Detach | WriteCore | Reattach | Estimate | WriteChunk | Other.

Definition step_of (e : Event IReduxNode Buffer) : Step :=
  match e with
  | Unlink _ => RemoveStale
  | SetNodes None => Detach
  | SetNodes (Some _) => Reattach
  | CallGuessSafeChunkSize _ => Estimate
  | WriteFile path _ =>
      if bool_decide (path = file) then WriteCore
      else if matches_star chunkFilePrefix path then WriteChunk
      else Other
  end.

(** The phases from the first one that admits [e] on. *)
Fixpoint phases_from (e : Event IReduxNode Buffer)
  (phases : list (Event IReduxNode Buffer → bool))
  : list (Event IReduxNode Buffer → bool) :=
  match phases with
  | [] => []
  | p :: phases' => if p e then phases else phases_from e phases'
  end.

(** [in_phases phases events]: the events split into consecutive blocks,
    one block (possibly empty) per phase, in the order of the phases. *)
Fixpoint in_phases (phases : list (Event IReduxNode Buffer → bool))
  (events : list (Event IReduxNode Buffer)) : bool :=
  match events with
  | [] => true
  | e :: events' =>
      match phases_from e phases with
      | [] => false
      | phases' => in_phases phases' events'
      end
  end.

(** Stale chunks removed, nodes detached, core file written, chunk files
    written, nodes reattached. *)
Definition reattach_last : list (Event IReduxNode Buffer → bool) :=
  [is_unlink; is_detach; is_write_core; is_chunk_step; is_reattach].

(** Stale chunks removed, nodes detached, core file written, nodes
    reattached, chunk files written. *)
Definition chunks_last : list (Event IReduxNode Buffer → bool) :=
  [is_unlink; is_detach; is_write_core; is_reattach; is_chunk_step].

(** [writeToCache] calls the estimator with at least one entry, if it calls
    it at all, so that the estimator has a non-zero maximum to divide by;
    and it writes no chunk file. *)
Definition skips_estimator (fuel : nat)
  (contents : ICachedReduxState IReduxNode Rest) (w : World IReduxNode Buffer)
  : Prop :=
  let events := events_since w (writeToCache fuel contents w).2 in
  ([] ∉ estimator_calls events) ∧
  (∀ values, values ∈ estimator_calls events →
     sampleLoop fuel values 0 0 ≠ Some 0) ∧
  chunk_writes events = [].

(** The buffers that the events write are of a length that a [Buffer]
    admits, so that [v8.serialize] has returned each of them. *)
Definition buffers_fit (events : list (Event IReduxNode Buffer)) : Prop :=
  ∀ path data, WriteFile path data ∈ events → byteLength data ≤ kMaxLength.

(** The disk after an action, and after a sequence of actions. *)
Definition perform (d : gmap string Buffer) (e : Event IReduxNode Buffer)
  : gmap string Buffer :=
  match e with
  | Unlink path => delete path d
  | WriteFile path data => <[path := data]> d
  | _ => d
  end.

Definition disk_after (events : list (Event IReduxNode Buffer))
  (d : gmap string Buffer) : gmap string Buffer :=
  foldl perform d events.

(** What [writeToCache] does after it has put the nodes back, when its
    chunk loop has gone through [j] rounds. *)
Definition chunkSteps (fuel : nat) (contents : ICachedReduxState IReduxNode Rest)
  (j : Z) : list (Event IReduxNode Buffer) :=
  match nodes contents with
  | None => []
  | Some m =>
      CallGuessSafeChunkSize m ::
      match guessSafeChunkSize fuel m with
      | None => []
      | Some chunkSize =>
          (λ i, WriteFile (chunkFile i) (chunkData m chunkSize i)) <$> seqZ 0 j
      end
  end.

End Log.

(** ** Sizes and listing orders *)

Section Sizes.
Context {IReduxNode Rest Buffer : Type} {RT : Runtime IReduxNode Rest Buffer}.

(** [v8.serialize(entry).length] *)
Definition encodedSize (e : Entry IReduxNode) : Z :=
  byteLength (v8_serialize (VEntry e)).

(** The encoded sizes of the entries of a chunk, added up. *)
Definition sumSizes (chunk : list (Entry IReduxNode)) : Z :=
  foldr (λ e total, encodedSize e + total) 0 chunk.

(** Whether every entry serializes to a non-empty buffer of admissible
    length, and whether the buffers that the events write are of
    admissible length. *)
Definition entries_fit_b (values : list (Entry IReduxNode)) : bool :=
  forallb (λ e, (0 <? encodedSize e) && (encodedSize e <=? kMaxLength)) values.

Definition buffers_fit_b (events : list (Event IReduxNode Buffer)) : bool :=
  forallb (λ e, match e with
                | WriteFile _ data => byteLength data <=? kMaxLength
                | _ => true
                end) events.

(** The same runtime, with [glob] listing its matches in another order. *)
Definition with_alphasort (sort : list string → list string)
  : Runtime IReduxNode Rest Buffer :=
  {| CWD := CWD;
     v8_serialize := v8_serialize;
     v8_deserialize := v8_deserialize;
     byteLength := byteLength;
     alphasort := sort |}.

End Sizes.

(** ** A small site

    A runtime in which a node is the number of bytes it serializes to, a
    buffer is the value it encodes, and [glob] sorts its matches. *)

Definition site_length (v : JsValue Z string) : Z :=
  match v with
  | VEntry e => Z.min kMaxLength (Z.max 1 e.2)
  | VEntries l => 1 + Z.min 1000 (Z.of_nat (length l))
  | _ => 64
  end.

Definition site : Runtime Z string (JsValue Z string) := {|
  CWD := "/site";
  v8_serialize := id;
  v8_deserialize := Some;
  byteLength := site_length;
  alphasort := merge_sort String.le
|}.

Definition site_entries (n size : Z) : list (Entry Z) :=
  (λ i, ("node-" +:+ pretty i, size)) <$> seqZ 0 n.

Definition site_state (n size : Z) : ICachedReduxState Z string :=
  {| nodes := Some (site_entries n size); rest := "COMPLETED" |}.

Definition site_state_without_nodes : ICachedReduxState Z string :=
  {| nodes := None; rest := "COMPLETED" |}.

Definition fresh_disk : World Z (JsValue Z string) :=
  {| disk := ∅; log := [] |}.

(** A disk whose two chunk files both have an entry for ["a"], and whose
    core file has a populated [nodes]. *)
Definition site_core : ICachedReduxState Z string :=
  {| nodes := Some [("kept", 1)]; rest := "COMPLETED" |}.

Definition overlapping_disk : World Z (JsValue Z string) :=
  {| disk := <[chunkFile (RT := site) 1 := VEntries [("a", 3)]]>
               (<[chunkFile (RT := site) 0 := VEntries [("a", 1); ("b", 2)]]>
                  (<[file (RT := site) := VState site_core]> ∅));
     log := [] |}.


(** A disk that holds chunk 7 of an earlier, larger run. *)
Definition stale_disk : World Z (JsValue Z string) :=
  {| disk := <[chunkFile (RT := site) 7 := VEntries [("old", 1)]]>
               (<[file (RT := site) := VState site_state_without_nodes]> ∅);
     log := [] |}.

(** A disk whose chunk 1 does not hold an array of entries. *)
Definition broken_chunk_disk : World Z (JsValue Z string) :=
  {| disk := <[chunkFile (RT := site) 1 := VUndefined]>
               (<[chunkFile (RT := site) 0 := VEntries [("a", 1); ("b", 2)]]>
                  (<[file (RT := site) := VState site_core]> ∅));
     log := [] |}.

(** A disk whose two chunk files have no key in common. *)
Definition two_chunk_disk : World Z (JsValue Z string) :=
  {| disk := <[chunkFile (RT := site) 1 := VEntries [("c", 3)]]>
               (<[chunkFile (RT := site) 0 := VEntries [("a", 1); ("b", 2)]]>
                  (<[file (RT := site) := VState site_core]> ∅));
     log := [] |}.

(** 22 entries of 1 KiB, and the same with a 2 GiB entry at index 1. *)
Definition site_entries_with_outlier : list (Entry Z) :=
  <[1%nat := ("node-1", kMaxLength)]> (site_entries 22 1024).

(** ** A site whose buffers have the length of what they hold

    An entry serializes to as many bytes as its node says, and an array of
    entries to the bytes of its entries and one more. *)

Definition additive_length (v : JsValue Z string) : Z :=
  match v with
  | VEntry e => Z.max 1 e.2
  | VEntries l => 1 + foldr (λ e total, Z.max 1 e.2 + total) 0 l
  | _ => 64
  end.

Definition additive_site : Runtime Z string (JsValue Z string) := {|
  CWD := "/site";
  v8_serialize := id;
  v8_deserialize := Some;
  byteLength := additive_length;
  alphasort := merge_sort String.le
|}.

(** 160 entries of one byte, the first of them of 1 GiB. *)
Definition site_entries_large_first : list (Entry Z) :=
  <[0%nat := ("node-0", 2 ^ 30)]> (site_entries 160 1).

Definition site_state_large_first : ICachedReduxState Z string :=
  {| nodes := Some site_entries_large_first; rest := "COMPLETED" |}.

(** * Properties *)

(** ** Strings and paths *)

Lemma strip_prefix_app (p s : string) : strip_prefix p (p +:+ s) = Some s.
Proof. induction p as [|a p IH]; simpl; [done|]. by rewrite decide_True. Qed.

Lemma strip_prefix_app_app (p s t : string) :
  strip_prefix (p +:+ s) (p +:+ t) = strip_prefix s t.
Proof. induction p as [|a p IH]; simpl; [done|]. by rewrite decide_True. Qed.


Lemma string_app_inv_head (p s t : string) : p +:+ s = p +:+ t → s = t.
Proof. induction p as [|a p IH]; [done|]. intros [= ?]. auto. Qed.

Lemma has_slash_pretty_N_go (x : N) (s : string) :
  has_slash s = false → has_slash (pretty_N_go x s) = false.
Proof.
  revert s. induction (N.lt_wf_0 x) as [x _ IH]; intros s Hs.
  destruct (decide (x = 0)%N) as [->|Hx].
  - by rewrite pretty_N_go_0.
  - rewrite pretty_N_go_step by lia. apply IH.
    + apply N.div_lt; lia.
    + simpl. rewrite Hs. unfold pretty_N_char. by repeat case_match.
Qed.

Lemma has_slash_pretty_Z (i : Z) : 0 ≤ i → has_slash (pretty i) = false.
Proof.
  intros Hi. destruct i as [|p|p]; [done| |lia].
  unfold pretty, pretty_Z, pretty, pretty_positive, pretty, pretty_N.
  rewrite decide_False by done. by apply has_slash_pretty_N_go.
Qed.


(** ** Integer quotients *)

Lemma Z_ceil_div_eq (a c : Z) : 0 < c → Z_ceil_div a c = (a + c - 1) / c.
Proof.
  intros Hc. unfold Z_ceil_div.
  pose proof (Z.div_mod (- a) c) as H1. pose proof (Z.mod_pos_bound (- a) c Hc) as H2.
  pose proof (Z.div_mod (a + c - 1) c) as H3.
  pose proof (Z.mod_pos_bound (a + c - 1) c Hc) as H4.
  nia.
Qed.

Lemma Z_ceil_div_bounds (a c : Z) :
  0 < c → (Z_ceil_div a c - 1) * c < a ≤ Z_ceil_div a c * c.
Proof.
  intros Hc. unfold Z_ceil_div.
  pose proof (Z.div_mod (- a) c) as H1. pose proof (Z.mod_pos_bound (- a) c Hc) as H2.
  nia.
Qed.



(** ** Slices *)

Lemma slice_take_drop {A : Type} (l : list A) (a c : Z) :
  0 ≤ a → 0 ≤ c →
  slice l a (a + c) = take (Z.to_nat c) (drop (Z.to_nat a) l).
Proof.
  intros Ha Hc. unfold slice, slice_index.
  rewrite !(proj2 (Z.ltb_ge _ _)) by lia.
  destruct (decide (a ≤ Z.of_nat (length l))) as [Hle|Hgt].
  - rewrite (Z.min_l a) by lia.
    destruct (decide (a + c ≤ Z.of_nat (length l))).
    + rewrite Z.min_l by lia. f_equal. lia.
    + rewrite Z.min_r by lia.
      rewrite (take_ge _ (Z.to_nat c)) by (rewrite length_drop; lia).
      apply take_ge. rewrite length_drop. lia.
  - rewrite !Z.min_r by lia. rewrite Z.sub_diag. simpl.
    rewrite Nat2Z.id, drop_all, (drop_ge l (Z.to_nat a)) by lia.
    by rewrite !take_nil.
Qed.


Lemma length_slice {A : Type} (l : list A) (a c : Z) :
  0 ≤ a → 0 ≤ c →
  Z.of_nat (length (slice l a (a + c))) = Z.min c (Z.max 0 (Z.of_nat (length l) - a)).
Proof.
  intros Ha Hc. rewrite slice_take_drop by done.
  rewrite length_take, length_drop. lia.
Qed.

(** The slices [0 .. k-1] of width [c] of a list of at most [k * c]
    elements, put one after the other, are the list. *)
Lemma concat_slices {A : Type} (l : list A) (c : Z) (k : nat) :
  0 < c → Z.of_nat (length l) ≤ Z.of_nat k * c →
  concat ((λ i, slice l (i * c) (i * c + c)) <$> seqZ 0 (Z.of_nat k)) = l.
Proof.
  intros Hc. revert l. induction k as [|k IH]; intros l Hl.
  - destruct l; [done|simpl in Hl; lia].
  - rewrite seqZ_cons by lia. rewrite fmap_cons. simpl concat.
    transitivity (take (Z.to_nat c) l ++ drop (Z.to_nat c) l);
      [|apply take_drop].
    f_equal.
    + rewrite slice_take_drop by lia. by rewrite drop_0.
    + replace (Z.pred (Z.of_nat (S k))) with (Z.of_nat k) by lia.
      rewrite <- (IH (drop (Z.to_nat c) l)) by (rewrite length_drop; lia).
      f_equal. change (Z.succ 0) with (1 + 0). rewrite <- fmap_add_seqZ.
      rewrite <- list_fmap_compose. apply list_fmap_ext. intros j i Hi. simpl.
      apply lookup_seqZ in Hi as [-> Hj].
      rewrite !slice_take_drop by lia. rewrite drop_drop. do 2 f_equal. lia.
Qed.

(** ** [new Map(entries)] *)

Lemma JsMap_get_set {V : Type} (k k' : string) (v : V) (m : list (string * V)) :
  JsMap.get k (JsMap.set k' v m) = if decide (k = k') then Some v else JsMap.get k m.
Proof.
  induction m as [|[k0 v0] m IH]; simpl.
  - done.
  - destruct (decide (k' = k0)) as [->|Hne]; simpl.
    + by destruct (decide (k = k0)).
    + rewrite IH. destruct (decide (k = k0)), (decide (k = k')); congruence.
Qed.

Lemma JsMap_get_foldl {V : Type} (k : string) (entries m : list (string * V)) :
  JsMap.get k (foldl (λ m e, JsMap.set e.1 e.2 m) m entries) =
  match JsMap.get k (reverse entries) with
  | Some v => Some v
  | None => JsMap.get k m
  end.
Proof.
  revert m. induction entries as [|[k0 v0] entries IH]; intros m; [done|].
  simpl. rewrite IH, reverse_cons, JsMap_get_set. simpl.
  assert (∀ l : list (string * V),
    JsMap.get k (l ++ [(k0, v0)]) =
    match JsMap.get k l with
    | Some v => Some v
    | None => if decide (k = k0) then Some v0 else None
    end) as ->.
  { induction l as [|[k1 v1] l IHl]; simpl; [done|]. by destruct (decide (k = k1)). }
  destruct (JsMap.get k (reverse entries)); [done|]. by destruct (decide (k = k0)).
Qed.

Lemma JsMap_get_of_entries {V : Type} (k : string) (entries : list (string * V)) :
  JsMap.get k (JsMap.of_entries entries) = JsMap.get k (reverse entries).
Proof.
  unfold JsMap.of_entries. rewrite JsMap_get_foldl. simpl.
  by destruct (JsMap.get k (reverse entries)).
Qed.



Lemma JsMap_view_lookup {V : Type} (k : string) (m : list (string * V)) :
  JsMap.view m !! k = JsMap.get k m.
Proof.
  unfold JsMap.view. induction m as [|[k0 v0] m IH]; simpl; [done|].
  destruct (decide (k = k0)) as [->|Hne].
  - by rewrite lookup_insert_eq.
  - by rewrite lookup_insert_ne.
Qed.

(** Built from entries with pairwise distinct keys, in any order, the
    [Map] denotes the mapping of these entries. *)
Lemma JsMap_view_of_entries {V : Type} (entries m : list (string * V)) :
  NoDup m.*1 → entries ≡ₚ m →
  JsMap.view (JsMap.of_entries entries) = JsMap.view m.
Proof.
  intros Hnd Hperm. apply map_eq. intros k.
  rewrite JsMap_view_lookup, JsMap_get_of_entries, <- JsMap_view_lookup.
  unfold JsMap.view. f_equal. apply list_to_map_proper.
  - by rewrite reverse_Permutation, Hperm.
  - by rewrite reverse_Permutation.
Qed.

Section Properties.
Context {IReduxNode Rest Buffer : Type} {RT : Runtime IReduxNode Rest Buffer}.

Implicit Types (w : World IReduxNode Buffer).
Implicit Types (contents : ICachedReduxState IReduxNode Rest).
Implicit Types (values m : list (Entry IReduxNode)).

(** What the development assumes of the environment, where a result
    depends on it: [glob] lists every match once; [v8.deserialize] inverts
    [v8.serialize]; a serialized value is a non-empty buffer, and no buffer
    is longer than [kMaxLength]. *)
Hypothesis alphasort_perm : ∀ l, alphasort l ≡ₚ l.
Hypothesis deserialize_serialize :
  ∀ v, v8_deserialize (v8_serialize v) = Some v.
Hypothesis serialize_length :
  ∀ v, 0 < byteLength (v8_serialize v) ≤ kMaxLength.

(** ** The two kinds of path *)

Lemma matches_chunkFile (i : Z) :
  0 ≤ i → matches_star chunkFilePrefix (chunkFile i) = true.
Proof.
  intros Hi. unfold matches_star, chunkFile.
  rewrite strip_prefix_app. by rewrite has_slash_pretty_Z.
Qed.

Lemma matches_file : matches_star chunkFilePrefix file = false.
Proof.
  unfold matches_star, chunkFilePrefix, file.
  by rewrite strip_prefix_app_app.
Qed.

Lemma chunkFile_inj (i j : Z) : chunkFile i = chunkFile j → i = j.
Proof.
  unfold chunkFile. intros H%string_app_inv_head. by apply (inj pretty).
Qed.

Lemma chunkFile_ne_file (i : Z) : chunkFile i ≠ file.
Proof.
  intros H. pose proof (strip_prefix_app chunkFilePrefix (pretty i)) as Hp.
  fold (chunkFile i) in Hp. rewrite H in Hp.
  unfold chunkFilePrefix, file in Hp. by rewrite strip_prefix_app_app in Hp.
Qed.

(** The paths of the module have no pattern character when [CWD] has
    none: the pattern that the code hands to [glob] is then the literal
    prefix followed by the one wildcard. *)
Lemma is_literal_app (s t : string) :
  is_literal (s +:+ t) = is_literal s && is_literal t.
Proof.
  induction s as [|a s IH]; [done|].
  change (String a s +:+ t) with (String a (s +:+ t)).
  cbn [is_literal]. rewrite IH. by rewrite andb_assoc.
Qed.

Lemma is_literal_paths :
  is_literal CWD = true →
  is_literal chunkFilePrefix = true ∧ is_literal file = true.
Proof.
  intros HCWD. unfold chunkFilePrefix, file.
  rewrite !is_literal_app, HCWD. split; by vm_compute.
Qed.

(** ** Buffers of admissible length *)

Lemma entries_fit_b_spec values :
  entries_fit_b values = true →
  ∀ e, e ∈ values → 0 < encodedSize e ≤ kMaxLength.
Proof.
  unfold entries_fit_b. rewrite forallb_forall. intros Hall e He.
  apply list_elem_of_In, Hall, andb_true_iff in He as [?%Z.ltb_lt ?%Z.leb_le].
  done.
Qed.

Lemma buffers_fit_b_spec (events : list (Event IReduxNode Buffer)) :
  buffers_fit_b events = true → buffers_fit events.
Proof.
  unfold buffers_fit_b. rewrite forallb_forall. intros Hall path data Hin.
  apply list_elem_of_In, Hall in Hin. by apply Z.leb_le.
Qed.

(** ** [globSync] *)


Lemma elem_of_globSync (prefix : string) w (f : string) :
  f ∈ globSync prefix w ↔ matches_star prefix f = true ∧ is_Some (disk w !! f).
Proof.
  unfold globSync. rewrite alphasort_perm, list_elem_of_filter.
  rewrite list_elem_of_fmap. split.
  - intros [? [[g b] [-> Hin]]]. split; [done|].
    apply elem_of_map_to_list in Hin. by exists b.
  - intros [? [b Hb]]. split; [done|]. exists (f, b). split; [done|].
    by apply elem_of_map_to_list.
Qed.

Lemma NoDup_globSync (prefix : string) w : NoDup (globSync prefix w).
Proof.
  unfold globSync. rewrite alphasort_perm.
  apply NoDup_filter, NoDup_fst_map_to_list.
Qed.

(** ** Removing the files of the previous run *)

Lemma log_unlinkAll (files : list string) w :
  log (unlinkAll files w) = log w ++ (Unlink <$> files).
Proof.
  revert w. induction files as [|f files IH]; intros w; simpl.
  - by rewrite app_nil_r.
  - unfold unlinkAll in *. simpl. rewrite IH. simpl. by rewrite <- app_assoc.
Qed.

Lemma disk_unlinkAll (files : list string) w (f : string) :
  disk (unlinkAll files w) !! f =
  if decide (f ∈ files) then None else disk w !! f.
Proof.
  revert w. induction files as [|g files IH]; intros w.
  - change (unlinkAll [] w) with w. case_decide as H; [|done].
    by apply elem_of_nil in H.
  - change (unlinkAll (g :: files) w) with (unlinkAll files (unlinkSync g w)).
    rewrite IH. change (disk (unlinkSync g w)) with (delete g (disk w)).
    rewrite lookup_delete. rewrite (decide_ext (f ∈ g :: files) (f = g ∨ f ∈ files))
      by apply elem_of_cons.
    destruct (decide (f ∈ files)), (decide (g = f)), (decide (f = g ∨ f ∈ files));
      first [done | exfalso; intuition congruence].
Qed.

(** ** The sampling loop *)

Lemma Z_ceil_div_sub (a c : Z) : 0 < c → Z_ceil_div (a - c) c = Z_ceil_div a c - 1.
Proof.
  intros Hc. pose proof (Z_ceil_div_bounds a c Hc).
  pose proof (Z_ceil_div_bounds (a - c) c Hc). nia.
Qed.

Lemma sampleLoop_mono (fuel fuel' : nat) values (i maxSize r : Z) :
  sampleLoop fuel values i maxSize = Some r → (fuel ≤ fuel')%nat →
  sampleLoop fuel' values i maxSize = Some r.
Proof.
  revert fuel' i maxSize. induction fuel as [|fuel IH]; intros fuel' i maxSize.
  - simpl. destruct (i <? _) eqn:Hi; [done|]. intros [= <-] _.
    destruct fuel'; simpl; by rewrite Hi.
  - simpl. destruct (i <? _) eqn:Hi.
    + intros Hr Hle. destruct fuel' as [|fuel']; [lia|]. simpl. rewrite Hi.
      apply IH; [done|lia].
    + intros [= <-] _. destruct fuel'; simpl; by rewrite Hi.
Qed.

(** With a stride of zero the loop never leaves its first index. *)
Lemma sampleLoop_stride_0 (fuel : nat) values (i maxSize : Z) :
  Z.of_nat (length values) / 11 = 0 → i < Z.of_nat (length values) →
  sampleLoop fuel values i maxSize = None.
Proof.
  intros Hstep Hi. revert maxSize. induction fuel as [|fuel IH]; intros maxSize.
  - simpl. by rewrite (proj2 (Z.ltb_lt _ _) Hi).
  - simpl. rewrite (proj2 (Z.ltb_lt _ _) Hi). rewrite Hstep, Z.add_0_r. apply IH.
Qed.

Lemma sampleLoop_stride_pos (fuel : nat) values (i maxSize : Z) :
  let valueCount := Z.of_nat (length values) in
  let step := valueCount / 11 in
  let remaining := Z_ceil_div (valueCount - i) step in
  0 < step → remaining < Z.of_nat fuel →
  sampleLoop fuel values i maxSize =
    Some (foldl (λ maxSize i, Z.max (sampleSize values i) maxSize) maxSize
            ((λ k, i + k * step) <$> seqZ 0 remaining)).
Proof.
  intros valueCount step remaining Hstep. subst remaining.
  revert i maxSize. induction fuel as [|fuel IH]; intros i maxSize Hfuel.
  - pose proof (Z_ceil_div_bounds (valueCount - i) step Hstep).
    simpl. fold valueCount. rewrite (proj2 (Z.ltb_ge _ _)) by nia.
    rewrite seqZ_nil by lia. done.
  - pose proof (Z_ceil_div_bounds (valueCount - i) step Hstep) as Hb.
    simpl. fold valueCount. fold step. destruct (i <? valueCount) eqn:Hi.
    + apply Z.ltb_lt in Hi.
      pose proof (Z_ceil_div_sub (valueCount - i) step Hstep) as Hsub.
      replace (valueCount - i - step) with (valueCount - (i + step)) in Hsub by lia.
      rewrite IH by lia. rewrite Hsub.
      rewrite (seqZ_cons 0 (Z_ceil_div (valueCount - i) step)) by nia.
      rewrite fmap_cons. simpl foldl. rewrite Z.add_0_r. do 2 f_equal.
      change (Z.succ 0) with (1 + 0). rewrite <- fmap_add_seqZ.
      rewrite <- list_fmap_compose.
      replace (Z.pred (Z_ceil_div (valueCount - i) step))
        with (Z_ceil_div (valueCount - i) step - 1) by lia.
      apply list_fmap_ext. intros _ k _. simpl. lia.
    + apply Z.ltb_ge in Hi. rewrite seqZ_nil by nia. done.
Qed.

(** *** [guessSafeChunkSize] *)

Lemma guessSafeChunkSize_mono (fuel fuel' : nat) values (chunkSize : JsNum) :
  guessSafeChunkSize fuel values = Some chunkSize → (fuel ≤ fuel')%nat →
  guessSafeChunkSize fuel' values = Some chunkSize.
Proof.
  unfold guessSafeChunkSize. destruct (sampleLoop fuel values 0 0) eqn:Hs; [|done].
  intros [= <-] Hle. by rewrite (sampleLoop_mono _ _ _ _ _ _ Hs Hle).
Qed.

Lemma guessSafeChunkSize_nil (fuel : nat) :
  guessSafeChunkSize fuel [] = Some Infinity.
Proof. by destruct fuel. Qed.

Lemma guessSafeChunkSize_below_11 (fuel : nat) values :
  (1 ≤ length values ≤ 10)%nat → guessSafeChunkSize fuel values = None.
Proof.
  intros Hlen. unfold guessSafeChunkSize.
  rewrite sampleLoop_stride_0; [done| |lia].
  apply Z.div_small. lia.
Qed.

Lemma sample_count_bound (n : Z) :
  11 ≤ n → 0 < n / 11 ∧ Z_ceil_div n (n / 11) ≤ 21.
Proof.
  intros Hn. pose proof (Z.div_mod n 11) as H1.
  pose proof (Z.mod_pos_bound n 11) as H2.
  assert (0 < n / 11) as Hstep by lia. split; [done|].
  pose proof (Z_ceil_div_bounds n (n / 11) Hstep). nia.
Qed.

Lemma guessSafeChunkSize_from_11 (fuel : nat) values :
  (11 ≤ length values)%nat → (22 ≤ fuel)%nat →
  guessSafeChunkSize fuel values =
    Some (Math_floor_div TARGET_BYTES (maxObservedSize values)).
Proof.
  intros Hlen Hfuel. unfold guessSafeChunkSize.
  destruct (sample_count_bound (Z.of_nat (length values))) as [Hstep Hcount]; [lia|].
  rewrite sampleLoop_stride_pos; [|done|rewrite Z.sub_0_r; lia].
  rewrite Z.sub_0_r. unfold maxObservedSize, sampleIndices. done.
Qed.

(** Whenever the estimator returns, it was given no entry at all, or at
    least 11 of them. *)
Lemma guessSafeChunkSize_Some (fuel : nat) values (chunkSize : JsNum) :
  guessSafeChunkSize fuel values = Some chunkSize →
  (values = [] ∧ chunkSize = Infinity) ∨
  ((11 ≤ length values)%nat ∧
   chunkSize = Math_floor_div TARGET_BYTES (maxObservedSize values)).
Proof.
  intros Hg. destruct (decide (length values = 0%nat)) as [H0|H0].
  - left. apply nil_length_inv in H0 as ->.
    rewrite guessSafeChunkSize_nil in Hg. by injection Hg as <-.
  - destruct (decide (length values ≤ 10)%nat).
    + rewrite guessSafeChunkSize_below_11 in Hg by lia. done.
    + right. split; [lia|].
      apply (guessSafeChunkSize_mono _ (fuel `max` 22)) in Hg; [|lia].
      rewrite guessSafeChunkSize_from_11 in Hg by lia. by injection Hg as <-.
Qed.

(** ** The chunk loop *)

Lemma log_storeChunks values (chunkSize : JsNum) (indices : list Z) w :
  log (storeChunks values chunkSize indices w) =
  log w ++ ((λ i, WriteFile (chunkFile i) (chunkData values chunkSize i)) <$> indices).
Proof.
  revert w. induction indices as [|i indices IH]; intros w.
  - simpl. by rewrite app_nil_r.
  - change (storeChunks values chunkSize (i :: indices) w) with
      (storeChunks values chunkSize indices
         (writeFileSync (chunkFile i) (chunkData values chunkSize i) w)).
    rewrite IH. simpl. by rewrite <- app_assoc.
Qed.

Lemma disk_storeChunks_other values (chunkSize : JsNum) (indices : list Z) w
  (f : string) :
  (∀ i, i ∈ indices → f ≠ chunkFile i) →
  disk (storeChunks values chunkSize indices w) !! f = disk w !! f.
Proof.
  revert w. induction indices as [|i indices IH]; intros w Hf; [done|].
  change (storeChunks values chunkSize (i :: indices) w) with
    (storeChunks values chunkSize indices
       (writeFileSync (chunkFile i) (chunkData values chunkSize i) w)).
  rewrite IH by (intros j Hj; apply Hf; by right).
  simpl. apply lookup_insert_ne. intros Heq. by apply (Hf i); [left|].
Qed.

Lemma disk_storeChunks_chunk values (chunkSize : JsNum) (indices : list Z) w
  (i : Z) :
  i ∈ indices →
  disk (storeChunks values chunkSize indices w) !! chunkFile i =
    Some (chunkData values chunkSize i).
Proof.
  revert w. induction indices as [|j indices IH]; intros w Hi.
  - by apply elem_of_nil in Hi.
  - change (storeChunks values chunkSize (j :: indices) w) with
      (storeChunks values chunkSize indices
         (writeFileSync (chunkFile j) (chunkData values chunkSize j) w)).
    destruct (decide (i ∈ indices)) as [Hin|Hnin]; [by apply IH|].
    apply elem_of_cons in Hi as [->|?]; [|done].
    rewrite disk_storeChunks_other.
    + simpl. apply lookup_insert_eq.
    + intros k Hk Heq. apply chunkFile_inj in Heq. by subst k.
Qed.

Lemma writeChunks_storeChunks (fuel : nat) values (chunkSize : JsNum)
  (chunks i : Z) w :
  chunks - i < Z.of_nat fuel →
  writeChunks fuel values chunkSize (Num chunks) i w =
    (Returned (), storeChunks values chunkSize (seqZ i (chunks - i)) w).
Proof.
  revert i w. induction fuel as [|fuel IH]; intros i w Hfuel.
  - simpl. rewrite (proj2 (Z.ltb_ge _ _)) by lia. by rewrite seqZ_nil by lia.
  - simpl. destruct (i <? chunks) eqn:Hi.
    + apply Z.ltb_lt in Hi. rewrite IH by lia.
      rewrite (seqZ_cons i) by lia.
      by replace (chunks - (i + 1)) with (Z.pred (chunks - i)) by lia.
    + apply Z.ltb_ge in Hi. by rewrite seqZ_nil by lia.
Qed.

(** Whatever the fuel and the bound, the loop has written the chunks
    [i .. i + j - 1] for some [j], in this order. *)
Lemma writeChunks_prefix (fuel : nat) values (chunkSize chunks : JsNum) (i : Z) w :
  ∃ j : Z, 0 ≤ j ∧
    (writeChunks fuel values chunkSize chunks i w).2 =
      storeChunks values chunkSize (seqZ i j) w ∧
    (∀ k, i ≤ k < i + j → js_lt k chunks = true) ∧
    ((writeChunks fuel values chunkSize chunks i w).1 = Returned () →
     js_lt (i + j) chunks = false).
Proof.
  revert i w. induction fuel as [|fuel IH]; intros i w.
  - exists 0. simpl. destruct (js_lt i chunks) eqn:Hlt; simpl.
    + split; [done|]. split; [done|]. split; [intros; lia|done].
    + rewrite Z.add_0_r. split; [done|]. split; [done|]. split; [intros; lia|done].
  - simpl. destruct (js_lt i chunks) eqn:Hlt.
    + destruct (IH (i + 1)
        (writeFileSync (chunkFile i)
           (v8_serialize (VEntries (chunkSlice values i chunkSize))) w))
        as (j & Hj & Hw & Hk & Hret).
      exists (j + 1). split; [lia|]. split; [|split].
      * rewrite Hw. rewrite (seqZ_cons i) by lia.
        by replace (Z.pred (j + 1)) with j by lia.
      * intros k Hk'. destruct (decide (k = i)) as [->|]; [done|].
        apply Hk. lia.
      * intros Hr. replace (i + (j + 1)) with (i + 1 + j) by lia. by apply Hret.
    + exists 0. simpl. rewrite Z.add_0_r.
      split; [done|]. split; [done|]. split; [intros; lia|done].
Qed.


(** ** [writeToCache], statement by statement *)

Lemma writeToCache_eq (fuel : nat) contents w :
  writeToCache fuel contents w =
  match nodes contents with
  | Some m =>
      let w1 := emit (CallGuessSafeChunkSize m) (prepare contents w) in
      match guessSafeChunkSize fuel m with
      | Some chunkSize =>
          let r := writeChunks fuel m chunkSize
                     (Math_ceil_div (Z.of_nat (length m)) chunkSize) 0 w1 in
          (r.1, contents, r.2)
      | None => (Diverged, contents, w1)
      end
  | None => (Returned (), contents, prepare contents w)
  end.
Proof.
  destruct contents as [[m|] r]; unfold writeToCache, prepare; simpl; [|done].
  unfold JsMap.entries. destruct (guessSafeChunkSize fuel m); [|done].
  by destruct (writeChunks _ _ _ _ _ _).
Qed.

Lemma log_prepare contents w :
  log (prepare contents w) =
  log w ++ (Unlink <$> globSync chunkFilePrefix w) ++
    [SetNodes None;
     WriteFile file (v8_serialize (VState (set_nodes None contents)));
     SetNodes (nodes contents)].
Proof.
  unfold prepare. simpl. rewrite log_unlinkAll. by rewrite <- !app_assoc.
Qed.

Lemma disk_prepare_file contents w :
  disk (prepare contents w) !! file =
    Some (v8_serialize (VState (set_nodes None contents))).
Proof. unfold prepare. simpl. apply lookup_insert_eq. Qed.

(** ** The estimate, for buffers of admissible length *)

Lemma foldl_max_ge_init values (l : list Z) (maxSize : Z) :
  maxSize ≤ foldl (λ maxSize i, Z.max (sampleSize values i) maxSize) maxSize l.
Proof.
  revert maxSize. induction l as [|i l IH]; intros maxSize; simpl; [lia|].
  etrans; [|apply IH]. lia.
Qed.

Lemma foldl_max_le values (l : list Z) (maxSize bound : Z) :
  maxSize ≤ bound → (∀ i, sampleSize values i ≤ bound) →
  foldl (λ maxSize i, Z.max (sampleSize values i) maxSize) maxSize l ≤ bound.
Proof.
  intros Hm Hb. revert maxSize Hm. induction l as [|i l IH]; intros maxSize Hm;
    simpl; [done|].
  apply IH. specialize (Hb i). lia.
Qed.

Lemma foldl_max_ge_sample values (l : list Z) (maxSize i : Z) :
  i ∈ l →
  sampleSize values i ≤
    foldl (λ maxSize i, Z.max (sampleSize values i) maxSize) maxSize l.
Proof.
  revert maxSize. induction l as [|j l IH]; intros maxSize Hi.
  - by apply elem_of_nil in Hi.
  - simpl. apply elem_of_cons in Hi as [->|Hi]; [|by apply IH].
    etrans; [|apply foldl_max_ge_init]. lia.
Qed.

Lemma foldl_max_attained values (l : list Z) (maxSize : Z) :
  foldl (λ maxSize i, Z.max (sampleSize values i) maxSize) maxSize l = maxSize ∨
  ∃ i, i ∈ l ∧
    foldl (λ maxSize i, Z.max (sampleSize values i) maxSize) maxSize l =
      sampleSize values i.
Proof.
  revert maxSize. induction l as [|j l IH]; intros maxSize; [by left|].
  simpl. destruct (IH (Z.max (sampleSize values j) maxSize)) as [->|(i & Hi & ->)].
  - destruct (Z.max_spec (sampleSize values j) maxSize) as [[_ ->]|[_ ->]];
      [by left|].
    right. exists j. split; [left|done].
  - right. exists i. split; [by right|done].
Qed.

(** From 11 entries on the loop takes between 11 and 21 samples, at the
    multiples of its stride below [valueCount], the first at index 0. *)
Lemma sampleIndices_spec (valueCount : Z) :
  11 ≤ valueCount →
  (11 ≤ length (sampleIndices valueCount) ≤ 21)%nat ∧
  0 ∈ sampleIndices valueCount ∧
  ∀ i, i ∈ sampleIndices valueCount ↔
       ∃ k, 0 ≤ k ∧ i = k * (valueCount / 11) ∧ i < valueCount.
Proof.
  intros Hn. destruct (sample_count_bound valueCount Hn) as [Hstep Hcount].
  pose proof (Z_ceil_div_bounds valueCount _ Hstep) as Hb.
  pose proof (Z.div_mod valueCount 11) as H1.
  pose proof (Z.mod_pos_bound valueCount 11) as H2.
  unfold sampleIndices. split; [|split].
  - rewrite length_fmap, length_seqZ. nia.
  - apply list_elem_of_fmap. exists 0. split; [lia|]. apply elem_of_seqZ. nia.
  - intros i. rewrite list_elem_of_fmap. split.
    + intros (k & -> & Hk%elem_of_seqZ). exists k. split; [lia|]. split; [done|nia].
    + intros (k & Hk & -> & Hlt). exists k. split; [done|].
      apply elem_of_seqZ. nia.
Qed.

Lemma sampleSize_bounds values (i : Z) : 0 < sampleSize values i ≤ kMaxLength.
Proof. apply serialize_length. Qed.

Lemma maxObservedSize_bounds values :
  (11 ≤ length values)%nat → 0 < maxObservedSize values ≤ kMaxLength.
Proof.
  intros Hlen. unfold maxObservedSize, sampleIndices. split.
  - destruct (sample_count_bound (Z.of_nat (length values))) as [Hstep _]; [lia|].
    pose proof (Z_ceil_div_bounds (Z.of_nat (length values)) _ Hstep).
    rewrite seqZ_cons by nia. rewrite fmap_cons. simpl foldl.
    eapply Z.lt_le_trans; [|apply foldl_max_ge_init].
    pose proof (sampleSize_bounds values (0 * (Z.of_nat (length values) / 11))). lia.
  - apply foldl_max_le; [done|]. intros i. apply sampleSize_bounds.
Qed.

Lemma Math_floor_div_TARGET (maxSize : Z) :
  0 < maxSize ≤ kMaxLength →
  ∃ c, Math_floor_div TARGET_BYTES maxSize = Num c ∧ 75 ≤ c ≤ TARGET_BYTES.
Proof.
  intros [Hpos Hmax]. exists (TARGET_BYTES / maxSize). unfold Math_floor_div.
  rewrite (proj2 (Z.eqb_neq _ _)) by lia. split; [done|]. split.
  - apply Z.div_le_lower_bound; [done|]. unfold kMaxLength, TARGET_BYTES in *. lia.
  - apply Z.div_le_upper_bound; [done|]. unfold TARGET_BYTES. nia.
Qed.

(** The chunk size the estimator returns, and the chunk count that
    [writeToCache] derives from it. *)
Lemma chunkSize_and_count (fuel : nat) values (chunkSize : JsNum) :
  guessSafeChunkSize fuel values = Some chunkSize →
  (values = [] ∧ chunkSize = Infinity ∧
   Math_ceil_div (Z.of_nat (length values)) chunkSize = Num 0) ∨
  (∃ c, (11 ≤ length values)%nat ∧ chunkSize = Num c ∧ 75 ≤ c ∧
     Math_ceil_div (Z.of_nat (length values)) chunkSize =
       Num (Z_ceil_div (Z.of_nat (length values)) c)).
Proof.
  intros [[-> ->]|[Hlen ->]]%guessSafeChunkSize_Some; [by left|right].
  destruct (Math_floor_div_TARGET (maxObservedSize values)) as (c & -> & Hc & _).
  { by apply maxObservedSize_bounds. }
  exists c. split; [done|]. split; [done|]. split; [done|].
  simpl. by rewrite (proj2 (Z.eqb_neq _ _)) by lia.
Qed.

(** The same, when it is the entries of the array that serialize to
    buffers of admissible length. *)
Lemma sampleSize_entry values (i : Z) :
  0 ≤ i < Z.of_nat (length values) →
  ∃ e, e ∈ values ∧ sampleSize values i = encodedSize e.
Proof.
  intros Hi. unfold sampleSize. rewrite (proj2 (Z.ltb_ge _ _)) by lia.
  destruct (lookup_lt_is_Some_2 values (Z.to_nat i)) as [e He]; [lia|].
  rewrite He. exists e. split; [|done]. by apply (list_elem_of_lookup_2 _ _ _ He).
Qed.

Lemma maxObservedSize_bounds_of_entries values :
  (11 ≤ length values)%nat →
  (∀ e, e ∈ values → 0 < encodedSize e ≤ kMaxLength) →
  0 < maxObservedSize values ≤ kMaxLength.
Proof.
  intros Hlen Hfit.
  destruct (sampleIndices_spec (Z.of_nat (length values))) as (_ & H0 & Hin); [lia|].
  assert (∀ i, i ∈ sampleIndices (Z.of_nat (length values)) →
    0 < sampleSize values i ≤ kMaxLength) as Hs.
  { intros i (k & Hk & -> & Hlt)%Hin.
    destruct (sampleSize_entry values (k * (Z.of_nat (length values) / 11)))
      as (e & He & ->); [|by apply Hfit].
    split; [|done]. apply Z.mul_nonneg_nonneg; [done|]. apply Z.div_pos; lia. }
  unfold maxObservedSize. split.
  - eapply Z.lt_le_trans; [apply (Hs 0 H0)|]. by apply foldl_max_ge_sample.
  - destruct (foldl_max_attained values
      (sampleIndices (Z.of_nat (length values))) 0) as [->|(i & Hi & ->)];
      [unfold kMaxLength; lia|].
    by apply Hs.
Qed.

Lemma chunkSize_and_count_of_entries (fuel : nat) values (chunkSize : JsNum) :
  (∀ e, e ∈ values → 0 < encodedSize e ≤ kMaxLength) →
  guessSafeChunkSize fuel values = Some chunkSize →
  (values = [] ∧ chunkSize = Infinity ∧
   Math_ceil_div (Z.of_nat (length values)) chunkSize = Num 0) ∨
  (∃ c, (11 ≤ length values)%nat ∧ chunkSize = Num c ∧ 75 ≤ c ∧
     c = TARGET_BYTES / maxObservedSize values ∧
     Math_ceil_div (Z.of_nat (length values)) chunkSize =
       Num (Z_ceil_div (Z.of_nat (length values)) c)).
Proof.
  intros Hfit [[-> ->]|[Hlen ->]]%guessSafeChunkSize_Some; [by left|right].
  pose proof (maxObservedSize_bounds_of_entries values Hlen Hfit) as Hmax.
  destruct (Math_floor_div_TARGET (maxObservedSize values) Hmax) as (c & Hc & Hc75 & _).
  rewrite Hc. exists c. split; [done|]. split; [done|]. split; [done|]. split.
  - unfold Math_floor_div in Hc. rewrite (proj2 (Z.eqb_neq _ _)) in Hc by lia.
    by injection Hc as <-.
  - simpl. by rewrite (proj2 (Z.eqb_neq _ _)) by lia.
Qed.

(** ** The estimator *)

(** C3. The stride [Math.floor(valueCount / 11)] is not clamped: for 1 to
    10 entries it is zero, the loop index never advances, and
    [guessSafeChunkSize] returns for no amount of fuel. *)
Theorem guessSafeChunkSize_diverges_below_11 (fuel : nat) values :
  (1 ≤ length values ≤ 10)%nat →
  Z.of_nat (length values) / 11 = 0 ∧
  (∀ i maxSize, 0 ≤ i < Z.of_nat (length values) →
     sampleLoop fuel values i maxSize = None) ∧
  guessSafeChunkSize fuel values = None.
Proof.
  intros Hlen.
  assert (Z.of_nat (length values) / 11 = 0) as Hstep by (apply Z.div_small; lia).
  split; [done|]. split.
  - intros i maxSize Hi. apply sampleLoop_stride_0; [done|lia].
  - by apply guessSafeChunkSize_below_11.
Qed.

(** C2. From 11 entries on, the estimator returns the floor of
    [TARGET_BYTES] by the largest of the sizes sampled; [TARGET_BYTES] is
    150 GiB, a hundred times the 1.5 GiB that the comment in the code
    announces, and a chunk of that many entries of the largest sampled
    size is longer than any buffer. *)
Theorem guessSafeChunkSize_target (fuel : nat) values :
  (11 ≤ length values)%nat → (22 ≤ fuel)%nat →
  ∃ c,
    guessSafeChunkSize fuel values = Some (Num c) ∧
    c = TARGET_BYTES / maxObservedSize values ∧
    (∀ i, i ∈ sampleIndices (Z.of_nat (length values)) →
       sampleSize values i ≤ maxObservedSize values) ∧
    (∃ i, i ∈ sampleIndices (Z.of_nat (length values)) ∧
       maxObservedSize values = sampleSize values i) ∧
    TARGET_BYTES = 100 * 1610612736 ∧ 2 * 1610612736 = 3 * 2 ^ 30 ∧
    kMaxLength < c * maxObservedSize values.
Proof.
  intros Hlen Hfuel. pose proof (maxObservedSize_bounds values Hlen) as Hmax.
  exists (TARGET_BYTES / maxObservedSize values).
  rewrite guessSafeChunkSize_from_11 by done. unfold Math_floor_div.
  rewrite (proj2 (Z.eqb_neq _ _)) by lia. split; [done|]. split; [done|].
  split; [intros i Hi; by apply foldl_max_ge_sample|].
  split.
  { destruct (foldl_max_attained values
      (sampleIndices (Z.of_nat (length values))) 0) as [H0|H]; [|done].
    unfold maxObservedSize in Hmax. lia. }
  split; [done|]. split; [done|].
  pose proof (Z.div_mod TARGET_BYTES (maxObservedSize values)) as H1.
  pose proof (Z.mod_pos_bound TARGET_BYTES (maxObservedSize values)) as H2.
  unfold kMaxLength, TARGET_BYTES in *. lia.
Qed.

(** X2. From 11 entries on the loop of the estimator ends within 22
    rounds: it takes between 11 and 21 samples, the first at index 0 and
    each at a multiple of [Math.floor(valueCount / 11)] below [valueCount],
    and the estimator returns the quotient of [TARGET_BYTES] by the largest
    of their sizes. *)
Theorem guessSafeChunkSize_returns_from_11 (fuel : nat) values :
  (11 ≤ length values)%nat → (22 ≤ fuel)%nat →
  sampleLoop fuel values 0 0 = Some (maxObservedSize values) ∧
  guessSafeChunkSize fuel values =
    Some (Math_floor_div TARGET_BYTES (maxObservedSize values)) ∧
  (11 ≤ length (sampleIndices (Z.of_nat (length values))) ≤ 21)%nat ∧
  0 ∈ sampleIndices (Z.of_nat (length values)) ∧
  (∀ i, i ∈ sampleIndices (Z.of_nat (length values)) →
     0 ≤ i < Z.of_nat (length values) ∧
     sampleSize values i ≤ maxObservedSize values).
Proof.
  intros Hlen Hfuel.
  destruct (sampleIndices_spec (Z.of_nat (length values))) as (Hn & H0 & Hin); [lia|].
  assert (sampleLoop fuel values 0 0 = Some (maxObservedSize values)) as Hloop.
  { destruct (sample_count_bound (Z.of_nat (length values))) as [Hstep Hcount]; [lia|].
    rewrite sampleLoop_stride_pos; [|done|rewrite Z.sub_0_r; lia].
    by rewrite Z.sub_0_r. }
  split; [done|]. split; [by apply guessSafeChunkSize_from_11|].
  split; [done|]. split; [done|]. intros i Hi. split.
  - apply Hin in Hi as (k & Hk & -> & Hlt).
    destruct (sample_count_bound (Z.of_nat (length values))) as [Hstep _]; [lia|].
    nia.
  - by apply foldl_max_ge_sample.
Qed.

(** ** The write path *)

Lemma disk_emit (e : Event IReduxNode Buffer) w : disk (emit e w) = disk w.
Proof. done. Qed.

Lemma log_emit (e : Event IReduxNode Buffer) w : log (emit e w) = log w ++ [e].
Proof. done. Qed.

Lemma disk_writeToCache_file (fuel : nat) contents w :
  disk (writeToCache fuel contents w).2 !! file =
    Some (v8_serialize (VState (set_nodes None contents))).
Proof.
  rewrite writeToCache_eq. destruct (nodes contents) as [m|]; simpl;
    [|apply disk_prepare_file].
  destruct (guessSafeChunkSize fuel m) as [chunkSize|]; simpl;
    [|apply disk_prepare_file].
  destruct (writeChunks_prefix fuel m chunkSize
    (Math_ceil_div (Z.of_nat (length m)) chunkSize) 0
    (emit (CallGuessSafeChunkSize m) (prepare contents w))) as (j & _ & -> & _).
  rewrite disk_storeChunks_other; [apply disk_prepare_file|].
  intros i _ Heq. by apply (chunkFile_ne_file i).
Qed.

(** C5. Whatever the state, the disk and the fuel, [writeToCache] leaves
    the object it was given as it found it, [nodes] included, and the core
    file holds the state serialized with [nodes] undefined. *)
Theorem writeToCache_restores_nodes (fuel : nat) contents w :
  (writeToCache fuel contents w).1.2 = contents ∧
  nodes (writeToCache fuel contents w).1.2 = nodes contents ∧
  ∃ core,
    disk (writeToCache fuel contents w).2 !! file =
      Some (v8_serialize (VState core)) ∧
    nodes core = None ∧ rest core = rest contents.
Proof.
  assert ((writeToCache fuel contents w).1.2 = contents) as Hc.
  { rewrite writeToCache_eq. destruct (nodes contents) as [m|]; [|done].
    simpl. by destruct (guessSafeChunkSize fuel m). }
  split; [done|]. split; [by rewrite Hc|].
  exists (set_nodes None contents). by rewrite disk_writeToCache_file.
Qed.

Lemma in_phases_chunk_steps (events : list (Event IReduxNode Buffer)) :
  Forall (λ e, is_chunk_step e = true) events →
  in_phases [is_chunk_step] events = true.
Proof.
  induction 1 as [|e events He _ IH]; [done|]. simpl. by rewrite He.
Qed.

Lemma in_phases_unlinks (files : list string)
  (phases : list (Event IReduxNode Buffer → bool))
  (events : list (Event IReduxNode Buffer)) :
  in_phases (is_unlink :: phases) ((Unlink <$> files) ++ events) =
  in_phases (is_unlink :: phases) events.
Proof. induction files as [|f files IH]; [done|]. simpl. apply IH. Qed.

Lemma Forall_chunkSteps (fuel : nat) contents (j : Z) :
  Forall (λ e, is_chunk_step e = true) (chunkSteps fuel contents j).
Proof.
  unfold chunkSteps. destruct (nodes contents) as [m|]; [|done].
  constructor; [done|]. destruct (guessSafeChunkSize fuel m) as [chunkSize|]; [|done].
  apply Forall_fmap, Forall_seqZ. intros i Hi. simpl.
  apply matches_chunkFile. lia.
Qed.

Lemma log_writeToCache (fuel : nat) contents w :
  ∃ j : Z, 0 ≤ j ∧
    log (writeToCache fuel contents w).2 =
      log w ++ (Unlink <$> globSync chunkFilePrefix w) ++
      [SetNodes None;
       WriteFile file (v8_serialize (VState (set_nodes None contents)));
       SetNodes (nodes contents)] ++
      chunkSteps fuel contents j.
Proof.
  rewrite writeToCache_eq. unfold chunkSteps.
  destruct (nodes contents) as [m|] eqn:Hm; cbv zeta.
  - destruct (guessSafeChunkSize fuel m) as [chunkSize|]; cbn [fst snd].
    + destruct (writeChunks_prefix fuel m chunkSize
        (Math_ceil_div (Z.of_nat (length m)) chunkSize) 0
        (emit (CallGuessSafeChunkSize m) (prepare contents w)))
        as (j & Hj & -> & _).
      exists j. split; [done|]. rewrite log_storeChunks, log_emit.
      rewrite log_prepare, Hm. by rewrite <- !app_assoc.
    + exists 0. split; [done|]. rewrite log_emit, log_prepare, Hm.
      by rewrite <- !app_assoc.
  - exists 0. split; [done|]. cbn [fst snd]. rewrite log_prepare, Hm.
    by rewrite app_nil_r.
Qed.

(** C4, as the code has it.  [writeToCache] removes the chunk files of the
    previous run, detaches the nodes, writes the core file, puts the nodes
    back, and only then calls the estimator and writes the chunk files, in
    the order of their indices. *)
Theorem writeToCache_order (fuel : nat) contents w :
  ∃ j : Z, 0 ≤ j ∧
    events_since w (writeToCache fuel contents w).2 =
      (Unlink <$> globSync chunkFilePrefix w) ++
      [SetNodes None;
       WriteFile file (v8_serialize (VState (set_nodes None contents)));
       SetNodes (nodes contents)] ++
      chunkSteps fuel contents j ∧
    in_phases chunks_last (events_since w (writeToCache fuel contents w).2) = true.
Proof.
  destruct (log_writeToCache fuel contents w) as (j & Hj & Hlog).
  exists j. split; [done|].
  assert (events_since w (writeToCache fuel contents w).2 =
    (Unlink <$> globSync chunkFilePrefix w) ++
    [SetNodes None;
     WriteFile file (v8_serialize (VState (set_nodes None contents)));
     SetNodes (nodes contents)] ++ chunkSteps fuel contents j) as ->.
  { unfold events_since. rewrite Hlog. by rewrite drop_app_length. }
  split; [done|]. unfold chunks_last. rewrite in_phases_unlinks. simpl.
  rewrite bool_decide_eq_true_2 by done.
  pose proof (Forall_chunkSteps fuel contents j) as Hsteps.
  destruct (chunkSteps fuel contents j) as [|e steps]; [done|].
  apply Forall_cons in Hsteps as [He Hsteps]. simpl.
  assert (is_reattach e = false) as -> by by destruct e.
  rewrite He. by apply in_phases_chunk_steps.
Qed.

(** *** The chunk files on the disk *)

Lemma disk_prepare_chunk contents w (f : string) :
  matches_star chunkFilePrefix f = true → disk (prepare contents w) !! f = None.
Proof.
  intros Hf. unfold prepare. rewrite disk_emit.
  change (disk (writeFileSync ?p ?b ?w)) with (<[p := b]> (disk w)).
  rewrite lookup_insert_ne by (intros <-; by rewrite matches_file in Hf).
  rewrite disk_emit, disk_unlinkAll. case_decide as Hin; [done|].
  rewrite elem_of_globSync in Hin. destruct (disk w !! f) eqn:E; [|done].
  destruct Hin. eauto.
Qed.

Lemma disk_prepare_other contents w (f : string) :
  matches_star chunkFilePrefix f = false → f ≠ file →
  disk (prepare contents w) !! f = disk w !! f.
Proof.
  intros Hf Hne. unfold prepare. rewrite disk_emit.
  change (disk (writeFileSync ?p ?b ?w)) with (<[p := b]> (disk w)).
  rewrite lookup_insert_ne by done.
  rewrite disk_emit, disk_unlinkAll. case_decide as Hin; [|done].
  rewrite elem_of_globSync in Hin. destruct Hin as [Hin _]. congruence.
Qed.

Lemma elem_of_globSync_storeChunks values (chunkSize : JsNum) (indices : list Z)
  w (f : string) :
  (∀ g, matches_star chunkFilePrefix g = true → disk w !! g = None) →
  Forall (λ i, 0 ≤ i) indices →
  f ∈ globSync chunkFilePrefix (storeChunks values chunkSize indices w) ↔
  f ∈ chunkFile <$> indices.
Proof.
  intros Hclean Hpos. rewrite elem_of_globSync, list_elem_of_fmap. split.
  - intros [Hf [b Hb]].
    destruct (decide (f ∈ chunkFile <$> indices)) as [Hin|Hnin].
    + by apply list_elem_of_fmap in Hin.
    + rewrite disk_storeChunks_other in Hb.
      * by rewrite Hclean in Hb.
      * intros i Hi ->. apply Hnin. by apply list_elem_of_fmap_2.
  - intros (i & -> & Hi). split.
    + apply matches_chunkFile. by apply (proj1 (Forall_forall _ _) Hpos).
    + rewrite disk_storeChunks_chunk by done. eauto.
Qed.

Lemma globSync_storeChunks values (chunkSize : JsNum) (indices : list Z) w :
  (∀ g, matches_star chunkFilePrefix g = true → disk w !! g = None) →
  Forall (λ i, 0 ≤ i) indices → NoDup indices →
  globSync chunkFilePrefix (storeChunks values chunkSize indices w) ≡ₚ
    chunkFile <$> indices.
Proof.
  intros Hclean Hpos Hnd. apply NoDup_Permutation.
  - apply NoDup_globSync.
  - apply NoDup_fmap_2_strong; [|done]. intros i j _ _. apply chunkFile_inj.
  - intros f. by apply elem_of_globSync_storeChunks.
Qed.

Lemma globSync_prepare contents w : globSync chunkFilePrefix (prepare contents w) = [].
Proof.
  apply elem_of_nil_inv. intros f [Hf [b Hb]]%elem_of_globSync.
  by rewrite disk_prepare_chunk in Hb.
Qed.

Lemma chunk_writes_app (l k : list (Event IReduxNode Buffer)) :
  chunk_writes (l ++ k) = chunk_writes l ++ chunk_writes k.
Proof. apply omap_app. Qed.

Lemma estimator_calls_app (l k : list (Event IReduxNode Buffer)) :
  estimator_calls (l ++ k) = estimator_calls l ++ estimator_calls k.
Proof. apply omap_app. Qed.

Lemma chunk_writes_unlinks (files : list string) :
  chunk_writes (Unlink (Buffer := Buffer) (IReduxNode := IReduxNode) <$> files) = [].
Proof. by induction files. Qed.

Lemma estimator_calls_unlinks (files : list string) :
  estimator_calls (Unlink (Buffer := Buffer) (IReduxNode := IReduxNode) <$> files) = [].
Proof. by induction files. Qed.

Lemma chunk_writes_storeChunks values (chunkSize : JsNum) (indices : list Z) :
  Forall (λ i, 0 ≤ i) indices →
  chunk_writes
    ((λ i, WriteFile (chunkFile i) (chunkData values chunkSize i)) <$> indices) =
    chunkFile <$> indices.
Proof.
  induction 1 as [|i indices Hi _ IH]; [done|].
  rewrite !fmap_cons. rewrite <- IH. unfold chunk_writes. simpl.
  by rewrite matches_chunkFile by done.
Qed.

Lemma estimator_calls_storeChunks values (chunkSize : JsNum) (indices : list Z) :
  estimator_calls
    ((λ i, WriteFile (IReduxNode := IReduxNode) (chunkFile i)
             (chunkData values chunkSize i)) <$> indices) = [].
Proof. by induction indices. Qed.

(** The events of a call, read for their chunk writes and estimator calls. *)
Lemma writeToCache_events (fuel : nat) contents w :
  ∃ j : Z, 0 ≤ j ∧
    (writeToCache fuel contents w).2 =
      match nodes contents with
      | None => prepare contents w
      | Some m =>
          match guessSafeChunkSize fuel m with
          | None => emit (CallGuessSafeChunkSize m) (prepare contents w)
          | Some chunkSize =>
              storeChunks m chunkSize (seqZ 0 j)
                (emit (CallGuessSafeChunkSize m) (prepare contents w))
          end
      end ∧
    estimator_calls (events_since w (writeToCache fuel contents w).2) =
      match nodes contents with None => [] | Some m => [m] end ∧
    chunk_writes (events_since w (writeToCache fuel contents w).2) =
      match nodes contents with
      | None => []
      | Some m =>
          match guessSafeChunkSize fuel m with
          | None => []
          | Some chunkSize => chunkFile <$> seqZ 0 j
          end
      end ∧
    (∀ chunkSize k, nodes contents = Some (k : list (Entry IReduxNode)) →
       guessSafeChunkSize fuel k = Some chunkSize →
       (∀ i, 0 ≤ i < j →
          js_lt i (Math_ceil_div (Z.of_nat (length k)) chunkSize) = true) ∧
       ((writeToCache fuel contents w).1.1 = Returned () →
          js_lt j (Math_ceil_div (Z.of_nat (length k)) chunkSize) = false)).
Proof.
  destruct (log_writeToCache fuel contents w) as (j0 & Hj0 & Hlog).
  assert (∃ j : Z, 0 ≤ j ∧
    (writeToCache fuel contents w).2 =
      match nodes contents with
      | None => prepare contents w
      | Some m =>
          match guessSafeChunkSize fuel m with
          | None => emit (CallGuessSafeChunkSize m) (prepare contents w)
          | Some chunkSize =>
              storeChunks m chunkSize (seqZ 0 j)
                (emit (CallGuessSafeChunkSize m) (prepare contents w))
          end
      end ∧
    (∀ chunkSize k, nodes contents = Some (k : list (Entry IReduxNode)) →
       guessSafeChunkSize fuel k = Some chunkSize →
       (∀ i, 0 ≤ i < j →
          js_lt i (Math_ceil_div (Z.of_nat (length k)) chunkSize) = true) ∧
       ((writeToCache fuel contents w).1.1 = Returned () →
          js_lt j (Math_ceil_div (Z.of_nat (length k)) chunkSize) = false)))
    as (j & Hj & Hw & Hbound).
  { rewrite writeToCache_eq. destruct (nodes contents) as [m|]; cbv zeta.
    - destruct (guessSafeChunkSize fuel m) as [chunkSize|] eqn:Hg; cbn [fst snd].
      + destruct (writeChunks_prefix fuel m chunkSize
          (Math_ceil_div (Z.of_nat (length m)) chunkSize) 0
          (emit (CallGuessSafeChunkSize m) (prepare contents w)))
          as (j & Hj & Hw & Hlt & Hret).
        exists j. split; [done|]. split; [done|].
        intros ? ? [= <-] Hg'. rewrite Hg in Hg'. injection Hg' as <-.
        split; [intros; apply Hlt; lia|done].
      + exists 0. split; [done|]. split; [done|].
        intros ? ? [= <-] Hg'. by rewrite Hg in Hg'.
    - exists 0. split; [done|]. split; [done|]. intros ? ? [=]. }
  exists j. split; [done|]. split; [done|].
  assert (events_since w (writeToCache fuel contents w).2 =
    (Unlink <$> globSync chunkFilePrefix w) ++
    [SetNodes None;
     WriteFile file (v8_serialize (VState (set_nodes None contents)));
     SetNodes (nodes contents)] ++ chunkSteps fuel contents j) as ->.
  { unfold events_since. rewrite Hw. unfold chunkSteps.
    destruct (nodes contents) as [m|] eqn:Hm.
    - destruct (guessSafeChunkSize fuel m) as [chunkSize|].
      + rewrite log_storeChunks, log_emit, log_prepare, Hm.
        rewrite <- !app_assoc. by rewrite drop_app_length.
      + rewrite log_emit, log_prepare, Hm.
        rewrite <- !app_assoc. by rewrite drop_app_length.
    - rewrite log_prepare, Hm. rewrite app_nil_r. by rewrite drop_app_length. }
  rewrite !estimator_calls_app, !chunk_writes_app.
  rewrite estimator_calls_unlinks, chunk_writes_unlinks.
  assert (chunk_writes
    [SetNodes None;
     WriteFile file (v8_serialize (VState (set_nodes None contents)));
     SetNodes (nodes contents)] = []) as ->.
  { unfold chunk_writes. simpl. by rewrite matches_file. }
  split; [|split; [|done]]; unfold chunkSteps; simpl;
    destruct (nodes contents) as [m|]; try done;
    destruct (guessSafeChunkSize fuel m) as [chunkSize|]; try done.
  - change (estimator_calls (?e :: ?l)) with (m :: estimator_calls l).
    by rewrite estimator_calls_storeChunks.
  - change (chunk_writes (CallGuessSafeChunkSize m :: ?l)) with (chunk_writes l).
    apply chunk_writes_storeChunks, Forall_seqZ. intros; lia.
Qed.

(** X3. For a [CWD] without pattern characters, [writeToCache] changes no
    file other than the core file and the files that the chunk pattern
    matches. *)
Theorem writeToCache_frame (fuel : nat) contents w (f : string) :
  is_literal CWD = true →
  f ≠ file → matches_star chunkFilePrefix f = false →
  disk (writeToCache fuel contents w).2 !! f = disk w !! f.
Proof.
  intros _ Hne Hf.
  destruct (writeToCache_events fuel contents w) as (j & Hj & -> & _).
  destruct (nodes contents) as [m|]; [|by apply disk_prepare_other].
  destruct (guessSafeChunkSize fuel m) as [chunkSize|].
  - rewrite disk_storeChunks_other.
    + rewrite disk_emit. by apply disk_prepare_other.
    + intros i Hi%elem_of_seqZ ->. rewrite matches_chunkFile in Hf by lia. done.
  - rewrite disk_emit. by apply disk_prepare_other.
Qed.

Lemma writeChunks_none (fuel : nat) values (chunkSize : JsNum) w :
  writeChunks fuel values chunkSize (Num 0) 0 w = (Returned (), w).
Proof. by destruct fuel. Qed.

(** C8, as the code has it.  The guard of [writeToCache] tests the [Map]
    object, not its size.  Without a [Map] the estimator is not called; with
    an empty [Map] it is called with no entries, samples nothing, and
    divides by the zero maximum, which gives [Infinity]; the chunk count is
    then [Math.ceil(0 / Infinity)], zero.  Either way the call returns and no
    chunk file is written or left on the disk. *)
Theorem writeToCache_without_entries (fuel : nat) contents w :
  nodes contents = None ∨ nodes contents = Some [] →
  (writeToCache fuel contents w).1.1 = Returned () ∧
  chunk_writes (events_since w (writeToCache fuel contents w).2) = [] ∧
  globSync chunkFilePrefix (writeToCache fuel contents w).2 = [] ∧
  (nodes contents = None →
     estimator_calls (events_since w (writeToCache fuel contents w).2) = []) ∧
  (nodes contents = Some [] →
     estimator_calls (events_since w (writeToCache fuel contents w).2) = [[]] ∧
     sampleLoop fuel [] 0 0 = Some 0 ∧
     guessSafeChunkSize fuel [] = Some (Math_floor_div TARGET_BYTES 0) ∧
     Math_floor_div TARGET_BYTES 0 = Infinity ∧
     Math_ceil_div 0 Infinity = Num 0).
Proof.
  intros Hnodes.
  assert ((writeToCache fuel contents w).1.1 = Returned () ∧
          (writeToCache fuel contents w).2 =
            match nodes contents with
            | None => prepare contents w
            | Some m => emit (CallGuessSafeChunkSize m) (prepare contents w)
            end) as [Hret Hw].
  { rewrite writeToCache_eq. destruct Hnodes as [->| ->]; [done|].
    cbv zeta. rewrite guessSafeChunkSize_nil. simpl Math_ceil_div.
    by rewrite writeChunks_none. }
  assert (events_since w (writeToCache fuel contents w).2 =
          (Unlink <$> globSync chunkFilePrefix w) ++
          [SetNodes None;
           WriteFile file (v8_serialize (VState (set_nodes None contents)));
           SetNodes (nodes contents)] ++
          match nodes contents with
          | None => []
          | Some m => [CallGuessSafeChunkSize m]
          end) as ->.
  { unfold events_since. rewrite Hw. destruct (nodes contents) as [m|] eqn:Hm.
    - rewrite log_emit, log_prepare, Hm. rewrite <- !app_assoc.
      by rewrite drop_app_length.
    - rewrite log_prepare, Hm. by rewrite app_nil_r, drop_app_length. }
  rewrite !chunk_writes_app, !estimator_calls_app.
  rewrite chunk_writes_unlinks, estimator_calls_unlinks.
  assert (chunk_writes
    [SetNodes None;
     WriteFile file (v8_serialize (VState (set_nodes None contents)));
     SetNodes (nodes contents)] = []) as ->.
  { unfold chunk_writes. simpl. by rewrite matches_file. }
  split; [done|]. split; [|split; [|split]].
  - by destruct (nodes contents).
  - rewrite Hw. destruct (nodes contents);
      [change (globSync ?p (emit ?e ?w)) with (globSync p w)|];
      apply globSync_prepare.
  - by intros ->.
  - intros ->. split; [done|].
    split; [by destruct fuel|]. by rewrite guessSafeChunkSize_nil.
Qed.

(** *** A call whose estimate is known *)

Lemma writeToCache_returns (fuelE : nat) contents m (chunkSize : JsNum) w :
  nodes contents = Some m → guessSafeChunkSize fuelE m = Some chunkSize →
  ∃ count : Z, 0 ≤ count ∧
    Math_ceil_div (Z.of_nat (length m)) chunkSize = Num count ∧
    (m = [] ∧ chunkSize = Infinity ∧ count = 0 ∨
     ∃ c, (11 ≤ length m)%nat ∧ chunkSize = Num c ∧ 75 ≤ c ∧
       count = Z_ceil_div (Z.of_nat (length m)) c ∧ 0 < count) ∧
    ∀ fuel, (fuelE ≤ fuel)%nat → count < Z.of_nat fuel →
      writeToCache fuel contents w =
        (Returned (), contents,
         storeChunks m chunkSize (seqZ 0 count)
           (emit (CallGuessSafeChunkSize m) (prepare contents w))).
Proof.
  intros Hm Hg.
  assert (∃ count : Z, 0 ≤ count ∧
    Math_ceil_div (Z.of_nat (length m)) chunkSize = Num count ∧
    (m = [] ∧ chunkSize = Infinity ∧ count = 0 ∨
     ∃ c, (11 ≤ length m)%nat ∧ chunkSize = Num c ∧ 75 ≤ c ∧
       count = Z_ceil_div (Z.of_nat (length m)) c ∧ 0 < count))
    as (count & Hcount & Hceil & Hcases).
  { destruct (chunkSize_and_count _ _ _ Hg)
      as [(-> & -> & Hc)|(c & Hlen & -> & Hc & Hceil)].
    - exists 0. split; [done|]. split; [done|]. by left.
    - exists (Z_ceil_div (Z.of_nat (length m)) c).
      pose proof (Z_ceil_div_bounds (Z.of_nat (length m)) c ltac:(lia)).
      split; [nia|]. split; [done|]. right. exists c.
      repeat (split; [done|]). nia. }
  exists count. split; [done|]. split; [done|]. split; [done|].
  intros fuel Hfuel Hfuel'. rewrite writeToCache_eq, Hm. cbv zeta.
  rewrite (guessSafeChunkSize_mono _ _ _ _ Hg Hfuel). rewrite Hceil.
  rewrite writeChunks_storeChunks by lia. by rewrite Z.sub_0_r.
Qed.

Lemma writeToCache_returns_of_entries (fuelE : nat) contents m (chunkSize : JsNum) w :
  nodes contents = Some m →
  (∀ e, e ∈ m → 0 < encodedSize e ≤ kMaxLength) →
  guessSafeChunkSize fuelE m = Some chunkSize →
  ∃ count : Z, 0 ≤ count ∧
    Math_ceil_div (Z.of_nat (length m)) chunkSize = Num count ∧
    (m = [] ∧ chunkSize = Infinity ∧ count = 0 ∨
     ∃ c, (11 ≤ length m)%nat ∧ chunkSize = Num c ∧ 75 ≤ c ∧
       count = Z_ceil_div (Z.of_nat (length m)) c ∧ 0 < count) ∧
    ∀ fuel, (fuelE ≤ fuel)%nat → count < Z.of_nat fuel →
      writeToCache fuel contents w =
        (Returned (), contents,
         storeChunks m chunkSize (seqZ 0 count)
           (emit (CallGuessSafeChunkSize m) (prepare contents w))).
Proof.
  intros Hm Hfit Hg.
  assert (∃ count : Z, 0 ≤ count ∧
    Math_ceil_div (Z.of_nat (length m)) chunkSize = Num count ∧
    (m = [] ∧ chunkSize = Infinity ∧ count = 0 ∨
     ∃ c, (11 ≤ length m)%nat ∧ chunkSize = Num c ∧ 75 ≤ c ∧
       count = Z_ceil_div (Z.of_nat (length m)) c ∧ 0 < count))
    as (count & Hcount & Hceil & Hcases).
  { destruct (chunkSize_and_count_of_entries _ _ _ Hfit Hg)
      as [(-> & -> & Hc)|(c & Hlen & -> & Hc & _ & Hceil)].
    - exists 0. split; [done|]. split; [done|]. by left.
    - exists (Z_ceil_div (Z.of_nat (length m)) c).
      pose proof (Z_ceil_div_bounds (Z.of_nat (length m)) c ltac:(lia)).
      split; [nia|]. split; [done|]. right. exists c.
      repeat (split; [done|]). nia. }
  exists count. split; [done|]. split; [done|]. split; [done|].
  intros fuel Hfuel Hfuel'. rewrite writeToCache_eq, Hm. cbv zeta.
  rewrite (guessSafeChunkSize_mono _ _ _ _ Hg Hfuel). rewrite Hceil.
  rewrite writeChunks_storeChunks by lia. by rewrite Z.sub_0_r.
Qed.

Lemma events_since_storeChunks contents m (chunkSize : JsNum) (indices : list Z) w :
  nodes contents = Some m →
  events_since w
    (storeChunks m chunkSize indices
       (emit (CallGuessSafeChunkSize m) (prepare contents w))) =
  (Unlink <$> globSync chunkFilePrefix w) ++
  [SetNodes None;
   WriteFile file (v8_serialize (VState (set_nodes None contents)));
   SetNodes (Some m);
   CallGuessSafeChunkSize m] ++
  ((λ i, WriteFile (chunkFile i) (chunkData m chunkSize i)) <$> indices).
Proof.
  intros Hm. unfold events_since.
  rewrite log_storeChunks, log_emit, log_prepare, Hm.
  rewrite <- !app_assoc. by rewrite drop_app_length.
Qed.

Lemma disk_written_clean contents m w (g : string) :
  matches_star chunkFilePrefix g = true →
  disk (emit (CallGuessSafeChunkSize m) (prepare contents w)) !! g = None.
Proof. intros Hg. rewrite disk_emit. by apply disk_prepare_chunk. Qed.

(** C7. When the estimator returns [chunkSize] for the [E] entries of the
    state, [writeToCache] returns, given enough fuel, after writing exactly
    [Math.ceil(E / chunkSize)] chunk files, named by the indices from 0 up
    in this order; these are then the chunk files on the disk; chunk [i]
    holds the entries from [i * chunkSize] on, [chunkSize] of them or as
    many as are left, and at least one; the chunks in sequence are the
    entries. *)
Theorem writeToCache_chunk_files (fuelE : nat) contents m (chunkSize : JsNum) w :
  nodes contents = Some m →
  guessSafeChunkSize fuelE m = Some chunkSize →
  ∃ (count : Z) (w' : World IReduxNode Buffer),
    Math_ceil_div (Z.of_nat (length m)) chunkSize = Num count ∧ 0 ≤ count ∧
    (∀ fuel, (fuelE ≤ fuel)%nat → count < Z.of_nat fuel →
       writeToCache fuel contents w = (Returned (), contents, w')) ∧
    chunk_writes (events_since w w') = chunkFile <$> seqZ 0 count ∧
    globSync chunkFilePrefix w' ≡ₚ chunkFile <$> seqZ 0 count ∧
    (∀ i, 0 ≤ i < count →
       ∃ c, chunkSize = Num c ∧ 0 < c ∧
         count = Z_ceil_div (Z.of_nat (length m)) c ∧
         disk w' !! chunkFile i =
           Some (v8_serialize (VEntries (slice m (i * c) (i * c + c)))) ∧
         Z.of_nat (length (slice m (i * c) (i * c + c))) =
           Z.min c (Z.of_nat (length m) - i * c) ∧
         0 < Z.min c (Z.of_nat (length m) - i * c)) ∧
    concat ((λ i, chunkSlice m i chunkSize) <$> seqZ 0 count) = m.
Proof.
  intros Hm Hg.
  destruct (writeToCache_returns fuelE contents m chunkSize w Hm Hg)
    as (count & Hcount & Hceil & Hcases & Hrun).
  exists count, (storeChunks m chunkSize (seqZ 0 count)
                   (emit (CallGuessSafeChunkSize m) (prepare contents w))).
  split; [done|]. split; [done|]. split; [done|].
  assert (Forall (λ i, 0 ≤ i) (seqZ 0 count)) as Hpos
    by (apply Forall_seqZ; intros; lia).
  split; [|split; [|split]].
  - rewrite (events_since_storeChunks _ _ _ _ _ Hm).
    rewrite !chunk_writes_app, chunk_writes_unlinks.
    rewrite chunk_writes_storeChunks by done.
    unfold chunk_writes. simpl. by rewrite matches_file.
  - apply globSync_storeChunks; [|done|apply NoDup_seqZ].
    intros g Hmatch. by apply disk_written_clean.
  - intros i Hi.
    destruct Hcases as [(_ & _ & ->)|(c & Hlen & -> & Hc & -> & Hcnt)]; [lia|].
    exists c. split; [done|]. split; [lia|]. split; [done|].
    pose proof (Z_ceil_div_bounds (Z.of_nat (length m)) c ltac:(lia)) as Hb.
    split; [|split].
    + rewrite disk_storeChunks_chunk by (apply elem_of_seqZ; lia). done.
    + rewrite length_slice by nia. nia.
    + nia.
  - destruct Hcases as [(-> & -> & ->)|(c & Hlen & -> & Hc & -> & Hcnt)]; [done|].
    pose proof (Z_ceil_div_bounds (Z.of_nat (length m)) c ltac:(lia)) as Hb.
    unfold chunkSlice.
    rewrite <- (Z2Nat.id (Z_ceil_div (Z.of_nat (length m)) c)) by lia.
    apply concat_slices; [lia|]. rewrite Z2Nat.id by lia. lia.
Qed.

(** Whatever the state, the fuel and the outcome, the chunk files on the
    disk after a call are those that the call has written. *)
Lemma globSync_writeToCache (fuel : nat) contents w :
  globSync chunkFilePrefix (writeToCache fuel contents w).2 ≡ₚ
    chunk_writes (events_since w (writeToCache fuel contents w).2).
Proof.
  destruct (writeToCache_events fuel contents w) as (j & Hj & -> & _ & -> & _).
  destruct (nodes contents) as [m|]; [|by rewrite globSync_prepare].
  destruct (guessSafeChunkSize fuel m) as [chunkSize|].
  - apply globSync_storeChunks; [|apply Forall_seqZ; intros; lia|apply NoDup_seqZ].
    intros g Hmatch. by apply disk_written_clean.
  - change (globSync ?p (emit ?e ?w)) with (globSync p w).
    by rewrite globSync_prepare.
Qed.

(** C6. For a [CWD] without pattern characters, and whatever an earlier
    call has left on the disk: the chunk files there after a call are those
    that this call has written, for every state, fuel and outcome; a call
    with [N2 >= 11] entries, each of which serializes to a buffer of
    admissible length, gets a chunk size [c > 0] from its estimator and,
    when the buffers that it writes fit, returns, given enough fuel, with
    exactly [count] chunk files on the disk, where [count] is the least
    integer with [N2 <= count * c]; and a call without entries leaves no
    chunk file. *)
Theorem writeToCache_no_orphans (fuel1 : nat)
  (earlier contents : ICachedReduxState IReduxNode Rest) w :
  is_literal CWD = true →
  (∀ fuel,
     globSync chunkFilePrefix
       (writeToCache fuel contents (writeToCache fuel1 earlier w).2).2 ≡ₚ
     chunk_writes
       (events_since (writeToCache fuel1 earlier w).2
          (writeToCache fuel contents (writeToCache fuel1 earlier w).2).2)) ∧
  (∀ m,
     nodes contents = Some m → (11 ≤ length m)%nat →
     (∀ e, e ∈ m → 0 < encodedSize e ≤ kMaxLength) →
     ∃ (c count : Z) (w' : World IReduxNode Buffer),
       guessSafeChunkSize 22 m = Some (Num c) ∧ 0 < c ∧
       (count - 1) * c < Z.of_nat (length m) ≤ count * c ∧
       (∀ fuel, (22 ≤ fuel)%nat → count < Z.of_nat fuel →
          buffers_fit
            (events_since (writeToCache fuel1 earlier w).2
               (writeToCache fuel contents (writeToCache fuel1 earlier w).2).2) →
          writeToCache fuel contents (writeToCache fuel1 earlier w).2 =
            (Returned (), contents, w')) ∧
       globSync chunkFilePrefix w' ≡ₚ chunkFile <$> seqZ 0 count ∧
       Z.of_nat (length (globSync chunkFilePrefix w')) = count) ∧
  (nodes contents = None ∨ nodes contents = Some [] →
     ∀ fuel,
       globSync chunkFilePrefix
         (writeToCache fuel contents (writeToCache fuel1 earlier w).2).2 = []).
Proof.
  intros _. set (w1 := (writeToCache fuel1 earlier w).2).
  split; [intros fuel; apply globSync_writeToCache|]. split.
  - intros m Hm Hlen Hfit.
    assert (guessSafeChunkSize 22 m =
      Some (Math_floor_div TARGET_BYTES (maxObservedSize m))) as Hg
      by by apply guessSafeChunkSize_from_11.
    destruct (writeToCache_returns_of_entries 22 contents m _ w1 Hm Hfit Hg)
      as (count & Hcount & Hceil & [(-> & _)|(c & _ & Hc & Hc75 & -> & Hpos)] & Hrun);
      [simpl in Hlen; lia|].
    rewrite Hc in Hg, Hrun.
    exists c, (Z_ceil_div (Z.of_nat (length m)) c),
      (storeChunks m (Num c) (seqZ 0 (Z_ceil_div (Z.of_nat (length m)) c))
         (emit (CallGuessSafeChunkSize m) (prepare contents w1))).
    assert (globSync chunkFilePrefix
              (storeChunks m (Num c) (seqZ 0 (Z_ceil_div (Z.of_nat (length m)) c))
                 (emit (CallGuessSafeChunkSize m) (prepare contents w1))) ≡ₚ
            chunkFile <$> seqZ 0 (Z_ceil_div (Z.of_nat (length m)) c)) as Hglob.
    { apply globSync_storeChunks; [|apply Forall_seqZ; intros; lia|apply NoDup_seqZ].
      intros g Hmatch. by apply disk_written_clean. }
    split; [done|]. split; [lia|].
    split; [apply Z_ceil_div_bounds; lia|].
    split; [intros fuel Hfuel Hfuel' _; by apply Hrun|]. split; [done|].
    rewrite Hglob, length_fmap, length_seqZ. lia.
  - intros Hnodes fuel. rewrite writeToCache_eq.
    destruct Hnodes as [->| ->]; cbv zeta; [apply globSync_prepare|].
    rewrite guessSafeChunkSize_nil. simpl Math_ceil_div.
    rewrite writeChunks_none. cbn [fst snd].
    change (globSync ?p (emit ?e ?w)) with (globSync p w).
    apply globSync_prepare.
Qed.

(** ** The read path *)

Lemma readChunk_chunkFile values (chunkSize : JsNum) (indices : list Z) w (i : Z) :
  i ∈ indices →
  readChunk (storeChunks values chunkSize indices w) (chunkFile i) =
    Returned (chunkSlice values i chunkSize).
Proof.
  intros Hi. unfold readChunk, readFileSync.
  rewrite disk_storeChunks_chunk by done. simpl.
  unfold deserialize, chunkData. by rewrite deserialize_serialize.
Qed.

Lemma mapOutcome_Returned {A B : Type} (g : A → Outcome B) (h : A → B) (l : list A) :
  (∀ x, x ∈ l → g x = Returned (h x)) → mapOutcome g l = Returned (h <$> l).
Proof.
  induction l as [|x l IH]; intros Hg; [done|].
  simpl. rewrite (Hg x) by left. simpl.
  rewrite IH by (intros y Hy; apply Hg; by right). done.
Qed.

Lemma concat_Permutation {A : Type} (l k : list (list A)) :
  l ≡ₚ k → concat l ≡ₚ concat k.
Proof.
  induction 1 as [|x l k _ IH|x y l|l k k' _ IH1 _ IH2]; simpl.
  - done.
  - by rewrite IH.
  - rewrite !app_assoc. by rewrite (Permutation_app_comm y x).
  - by rewrite IH1.
Qed.

Lemma chunkSlice_nonempty values (c i : Z) :
  0 < c → 0 ≤ i → i < Z_ceil_div (Z.of_nat (length values)) c →
  chunkSlice values i (Num c) ≠ [].
Proof.
  intros Hc Hi Hlt Hnil.
  pose proof (Z_ceil_div_bounds (Z.of_nat (length values)) c Hc) as Hb.
  pose proof (length_slice values (i * c) c ltac:(nia) ltac:(lia)) as Hlen.
  unfold chunkSlice in Hnil. rewrite Hnil in Hlen. simpl in Hlen. nia.
Qed.

(** C10. For a state with entries: a chunk size that the estimator
    returns is a positive integer, and from 11 entries on it returns one;
    whatever the fuel, every chunk file that the call leaves on the disk
    holds at least one entry; so the chunks that [readFromCache] then
    reads are all non-empty, and it finds a chunk file exactly when it
    finds an entry. *)
Theorem chunk_files_hold_entries (fuel : nat) contents m w :
  nodes contents = Some m → m ≠ [] →
  (∀ chunkSize, guessSafeChunkSize fuel m = Some chunkSize →
     ∃ c, chunkSize = Num c ∧ 0 < c) ∧
  ((11 ≤ length m)%nat → (22 ≤ fuel)%nat →
     ∃ c, guessSafeChunkSize fuel m = Some (Num c) ∧ 0 < c) ∧
  (∀ f, f ∈ globSync chunkFilePrefix (writeToCache fuel contents w).2 →
     ∃ chunk,
       disk (writeToCache fuel contents w).2 !! f =
         Some (v8_serialize (VEntries chunk)) ∧
       chunk ≠ []) ∧
  ∃ chunks,
    mapOutcome (readChunk (writeToCache fuel contents w).2)
      (globSync chunkFilePrefix (writeToCache fuel contents w).2) =
      Returned chunks ∧
    Forall (λ chunk, chunk ≠ []) chunks ∧
    (length chunks ≠ 0%nat ↔ concat chunks ≠ []).
Proof.
  intros Hm Hne.
  assert (∀ chunkSize, guessSafeChunkSize fuel m = Some chunkSize →
    ∃ c, chunkSize = Num c ∧ 75 ≤ c ∧
      Math_ceil_div (Z.of_nat (length m)) chunkSize =
        Num (Z_ceil_div (Z.of_nat (length m)) c)) as Hsize.
  { intros chunkSize Hg.
    destruct (chunkSize_and_count _ _ _ Hg) as [(-> & _)|(c & _ & -> & Hc & Hceil)];
      [done|eauto]. }
  split; [|split].
  { intros chunkSize Hg. destruct (Hsize _ Hg) as (c & -> & Hc & _).
    exists c. split; [done|lia]. }
  { intros Hlen Hfuel. rewrite guessSafeChunkSize_from_11 by done.
    destruct (Math_floor_div_TARGET (maxObservedSize m)) as (c & -> & Hc & _).
    { by apply maxObservedSize_bounds. }
    exists c. split; [done|lia]. }
  destruct (writeToCache_events fuel contents w) as (j & Hj & Hw & _ & _ & Hbound).
  rewrite Hm in Hw. specialize (λ C, Hbound C m Hm).
  destruct (guessSafeChunkSize fuel m) as [chunkSize|] eqn:Hg.
  - destruct (Hsize _ eq_refl) as (c & -> & Hc & Hceil).
    destruct (Hbound _ eq_refl) as [Hlt _]. rewrite Hceil in Hlt. simpl in Hlt.
    assert (Forall (λ i, 0 ≤ i) (seqZ 0 j)) as Hpos
      by (apply Forall_seqZ; intros; lia).
    assert (∀ f, f ∈ globSync chunkFilePrefix (writeToCache fuel contents w).2 →
      ∃ i, 0 ≤ i < j ∧ f = chunkFile i) as Hfiles.
    { intros f. rewrite Hw, elem_of_globSync_storeChunks; [|
        intros g Hmatch; by apply disk_written_clean|done].
      intros (i & -> & Hi%elem_of_seqZ)%list_elem_of_fmap. exists i.
      split; [lia|done]. }
    assert (∀ i, 0 ≤ i < j → chunkSlice m i (Num c) ≠ []) as Hchunk.
    { intros i Hi. apply chunkSlice_nonempty; [lia..|].
      apply Z.ltb_lt, Hlt. lia. }
    split.
    + intros f (i & Hi & ->)%Hfiles. exists (chunkSlice m i (Num c)).
      split; [|by apply Hchunk].
      rewrite Hw. apply disk_storeChunks_chunk, elem_of_seqZ. lia.
    + set (chunkOf := λ f,
        match readChunk (writeToCache fuel contents w).2 f with
        | Returned chunk => chunk
        | _ => []
        end).
      assert (∀ f, f ∈ globSync chunkFilePrefix (writeToCache fuel contents w).2 →
        readChunk (writeToCache fuel contents w).2 f = Returned (chunkOf f) ∧
        chunkOf f ≠ []) as Hread.
      { intros f (i & Hi & ->)%Hfiles. unfold chunkOf. rewrite Hw.
        rewrite readChunk_chunkFile by (apply elem_of_seqZ; lia).
        split; [done|by apply Hchunk]. }
      exists (chunkOf <$> globSync chunkFilePrefix (writeToCache fuel contents w).2).
      split; [apply mapOutcome_Returned; intros f Hf; by apply Hread|].
      assert (Forall (λ chunk, chunk ≠ [])
        (chunkOf <$> globSync chunkFilePrefix (writeToCache fuel contents w).2))
        as Hall.
      { apply Forall_fmap, Forall_forall. intros f Hf. by apply Hread. }
      split; [done|].
      destruct (chunkOf <$> globSync chunkFilePrefix (writeToCache fuel contents w).2)
        as [|chunk chunks]; [done|].
      apply Forall_cons in Hall as [Hchunk0 _]. simpl. split; [|done].
      intros _. by destruct chunk.
  - assert (globSync chunkFilePrefix (writeToCache fuel contents w).2 = []) as ->.
    { rewrite Hw. change (globSync ?p (emit ?e ?w)) with (globSync p w).
      apply globSync_prepare. }
    split; [by intros f ?%elem_of_nil|]. by exists [].
Qed.



Lemma readFromCache_unfold w (b : Buffer) obj :
  disk w !! file = Some b → v8_deserialize b = Some (VState obj) →
  ∀ chunks,
    mapOutcome (readChunk w) (globSync chunkFilePrefix w) = Returned chunks →
    readFromCache w =
      if decide (length chunks ≠ 0%nat)
      then Returned (set_nodes (Some (JsMap.of_entries (concat chunks))) obj)
      else Returned obj.
Proof.
  intros Hfile Hdec chunks Hchunks. unfold readFromCache, readFileSync, deserialize.
  rewrite Hfile. simpl. rewrite Hdec. simpl. by rewrite Hchunks.
Qed.


(** ** Writing, then reading *)

(** C1. For a state of 1 to 10 entries [writeToCache] does not return,
    whatever the fuel: it stops in the estimator, having written the core
    file and no chunk file. *)
Theorem writeToCache_diverges_below_11 (fuel : nat) contents m w :
  nodes contents = Some m → (1 ≤ length m ≤ 10)%nat →
  (writeToCache fuel contents w).1.1 = Diverged ∧
  chunk_writes (events_since w (writeToCache fuel contents w).2) = [] ∧
  globSync chunkFilePrefix (writeToCache fuel contents w).2 = [].
Proof.
  intros Hm Hlen.
  destruct (writeToCache_events fuel contents w) as (j & _ & Hw & _ & Hwrites & _).
  rewrite Hm in Hw, Hwrites.
  rewrite guessSafeChunkSize_below_11 in Hw, Hwrites by done.
  split; [|split; [done|]].
  - rewrite writeToCache_eq, Hm. cbv zeta.
    by rewrite guessSafeChunkSize_below_11.
  - rewrite Hw. change (globSync ?p (emit ?e ?w)) with (globSync p w).
    apply globSync_prepare.
Qed.

(** X1. Outside this range - no entries, or at least 11 - a state with
    pairwise distinct keys is written and read back, when [CWD] has no
    pattern character, every entry serializes to a buffer of admissible
    length, and so does what the call writes: the call returns, and
    [readFromCache] returns a state with the same fields and the same
    mapping from keys to nodes ([nodes] is undefined when there was no
    entry). *)
Theorem write_then_read (fuel : nat) contents m w :
  is_literal CWD = true →
  nodes contents = Some m → NoDup m.*1 →
  m = [] ∨ (11 ≤ length m)%nat →
  (22 ≤ fuel)%nat → (length m < fuel)%nat →
  (∀ e, e ∈ m → 0 < encodedSize e ≤ kMaxLength) →
  buffers_fit (events_since w (writeToCache fuel contents w).2) →
  ∃ w' obj,
    writeToCache fuel contents w = (Returned (), contents, w') ∧
    readFromCache w' = Returned obj ∧
    rest obj = rest contents ∧
    (m = [] → nodes obj = None) ∧
    (m ≠ [] → ∃ m', nodes obj = Some m') ∧
    JsMap.view (default [] (nodes obj)) = JsMap.view m.
Proof.
  intros _ Hm Hnd Hcases Hfuel Hfuel' Hfit _.
  assert (∃ chunkSize, guessSafeChunkSize 22 m = Some chunkSize) as [chunkSize Hg].
  { destruct Hcases as [->|Hlen].
    - by rewrite guessSafeChunkSize_nil; eauto.
    - rewrite guessSafeChunkSize_from_11 by done. eauto. }
  destruct (writeToCache_returns_of_entries 22 contents m chunkSize w Hm Hfit Hg)
    as (count & Hcount & Hceil & Hshape & Hrun).
  set (w' := storeChunks m chunkSize (seqZ 0 count)
               (emit (CallGuessSafeChunkSize m) (prepare contents w))) in *.
  assert (count < Z.of_nat fuel) as Hcf.
  { destruct Hshape as [(_ & _ & ->)|(c & _ & _ & Hc & -> & _)]; [lia|].
    pose proof (Z_ceil_div_bounds (Z.of_nat (length m)) c ltac:(lia)). nia. }
  assert (Forall (λ i, 0 ≤ i) (seqZ 0 count)) as Hpos
    by (apply Forall_seqZ; intros; lia).
  assert (globSync chunkFilePrefix w' ≡ₚ chunkFile <$> seqZ 0 count) as Hglob.
  { apply globSync_storeChunks; [|done|apply NoDup_seqZ].
    intros g Hmatch. by apply disk_written_clean. }
  assert (disk w' !! file =
    Some (v8_serialize (VState (set_nodes None contents)))) as Hfile.
  { unfold w'. rewrite disk_storeChunks_other; [apply disk_prepare_file|].
    intros i _ Heq. by apply (chunkFile_ne_file i). }
  set (chunkOf := λ f,
    match readChunk w' f with Returned chunk => chunk | _ => [] end).
  assert (∀ i, 0 ≤ i < count → chunkOf (chunkFile i) = chunkSlice m i chunkSize)
    as HchunkOf.
  { intros i Hi. unfold chunkOf, w'.
    by rewrite readChunk_chunkFile by (apply elem_of_seqZ; lia). }
  assert (mapOutcome (readChunk w') (globSync chunkFilePrefix w') =
    Returned (chunkOf <$> globSync chunkFilePrefix w')) as Hchunks.
  { apply mapOutcome_Returned. intros f Hf. rewrite Hglob in Hf.
    apply list_elem_of_fmap in Hf as (i & -> & Hi). unfold chunkOf, w'.
    by rewrite readChunk_chunkFile. }
  assert (concat (chunkOf <$> globSync chunkFilePrefix w') ≡ₚ m) as Hconcat.
  { rewrite (concat_Permutation _ (chunkOf <$> (chunkFile <$> seqZ 0 count)))
      by by rewrite Hglob.
    rewrite <- list_fmap_compose.
    rewrite (list_fmap_ext _ (λ i, chunkSlice m i chunkSize) (seqZ 0 count)).
    - destruct Hshape as [(-> & -> & ->)|(c & Hlen & -> & Hc & -> & Hcnt)]; [done|].
      pose proof (Z_ceil_div_bounds (Z.of_nat (length m)) c ltac:(lia)) as Hb.
      unfold chunkSlice.
      rewrite <- (Z2Nat.id (Z_ceil_div (Z.of_nat (length m)) c)) by lia.
      rewrite concat_slices; [done|lia|]. rewrite Z2Nat.id by lia. lia.
    - intros ? i [-> ?]%lookup_seqZ. simpl. apply HchunkOf. lia. }
  pose proof (readFromCache_unfold w' _ (set_nodes None contents) Hfile
    (deserialize_serialize _) _ Hchunks) as Hread.
  assert (length (globSync chunkFilePrefix w') = Z.to_nat count) as Hlen.
  { by rewrite Hglob, length_fmap, length_seqZ. }
  exists w'.
  destruct Hshape as [(-> & -> & ->)|(c & Hlen' & -> & Hc & -> & Hcnt)].
  - rewrite decide_False in Hread by (rewrite length_fmap, Hlen; simpl; lia).
    exists (set_nodes None contents). split; [by apply Hrun|]. by repeat split.
  - rewrite decide_True in Hread by (rewrite length_fmap, Hlen; lia).
    eexists. split; [by apply Hrun|]. split; [exact Hread|].
    split; [done|]. split; [by intros ->|]. split; [simpl; eauto|]. simpl.
    by apply JsMap_view_of_entries.
Qed.

(** ** More on the paths, the read path and the write path *)

(** X4. For a [CWD] without pattern characters: the chunk prefix and the
    core path have none either, so that the one wildcard of the pattern is
    the [*] that the code appends; [glob] never lists the core file for the
    chunk pattern; it lists the chunk file of every index [0, 1, 2, ...]
    that is on the disk; no chunk file is the core file; chunk files of
    different indices are different files. *)
Theorem cache_paths_distinct :
  is_literal CWD = true →
  is_literal chunkFilePrefix = true ∧ is_literal file = true ∧
  (∀ w, file ∉ globSync chunkFilePrefix w) ∧
  (∀ w i, 0 ≤ i → is_Some (disk w !! chunkFile i) →
     chunkFile i ∈ globSync chunkFilePrefix w) ∧
  (∀ i, chunkFile i ≠ file) ∧
  (∀ i j, chunkFile i = chunkFile j → i = j).
Proof.
  intros HCWD. destruct (is_literal_paths HCWD) as [Hprefix Hfile].
  split; [done|]. split; [done|]. split; [|split; [|split]].
  - intros w [Hmatch _]%elem_of_globSync. by rewrite matches_file in Hmatch.
  - intros w i Hi Hsome. apply elem_of_globSync. split; [|done].
    by apply matches_chunkFile.
  - apply chunkFile_ne_file.
  - apply chunkFile_inj.
Qed.

Lemma mapOutcome_inv {A B : Type} (g : A → Outcome B) (l : list A) (ys : list B) :
  mapOutcome g l = Returned ys → Forall2 (λ x y, g x = Returned y) l ys.
Proof.
  revert ys. induction l as [|x l IH]; intros ys; simpl.
  - intros [= <-]. constructor.
  - destruct (g x) as [y| | |] eqn:Hx; simpl; [|done..].
    destruct (mapOutcome g l) as [ys'| | |]; simpl; [|done..].
    intros [= <-]. constructor; [done|by apply IH].
Qed.

Lemma mapOutcome_total {A B : Type} (g : A → Outcome B) (l : list A) :
  (∀ x, x ∈ l → ∃ y, g x = Returned y) → ∃ ys, mapOutcome g l = Returned ys.
Proof.
  induction l as [|x l IH]; intros Hg; simpl; [by eexists|].
  destruct (Hg x) as [y ->]; [left|]. simpl.
  destruct IH as [ys ->]; [intros z Hz; apply Hg; by right|]. simpl. by eexists.
Qed.

Lemma mapOutcome_Threw {A B : Type} (g : A → Outcome B) (l : list A) (e : Error) :
  mapOutcome g l = Threw e → ∃ x, x ∈ l ∧ g x = Threw e.
Proof.
  induction l as [|x l IH]; simpl; [done|].
  destruct (g x) as [y| | |] eqn:Hx; simpl; [|by intros [= <-]; exists x; split; [left|]|done..].
  destruct (mapOutcome g l) as [ys| | |]; simpl; [done| |done..].
  intros [= <-]. destruct IH as (z & Hz & Hgz); [done|].
  exists z. split; [by right|done].
Qed.

Lemma mapOutcome_Diverged {A B : Type} (g : A → Outcome B) (l : list A) :
  mapOutcome g l = Diverged → ∃ x, x ∈ l ∧ g x = Diverged.
Proof.
  induction l as [|x l IH]; simpl; [done|].
  destruct (g x) as [y| | |] eqn:Hx; simpl; [|done|by exists x; split; [left|]|done].
  destruct (mapOutcome g l) as [ys| | |]; simpl; [done|done| |done].
  intros _. destruct IH as (z & Hz & Hgz); [done|].
  exists z. split; [by right|done].
Qed.

Lemma mapOutcome_IllTyped {A B : Type} (g : A → Outcome B) (l : list A) :
  mapOutcome g l = IllTyped → ∃ x, x ∈ l ∧ g x = IllTyped.
Proof.
  induction l as [|x l IH]; simpl; [done|].
  destruct (g x) as [y| | |] eqn:Hx; simpl; [|done|done|by exists x; split; [left|]].
  destruct (mapOutcome g l) as [ys| | |]; simpl; [done|done|done|].
  intros _. destruct IH as (z & Hz & Hgz); [done|].
  exists z. split; [by right|done].
Qed.

Lemma readChunk_Returned w (f : string) (l : list (Entry IReduxNode)) :
  readChunk w f = Returned l ↔
  ∃ b, disk w !! f = Some b ∧ v8_deserialize b = Some (VEntries l).
Proof.
  unfold readChunk, readFileSync, deserialize. split.
  - destruct (disk w !! f) as [b|]; simpl; [|done].
    destruct (v8_deserialize b) as [v|] eqn:Hv; simpl; [|done].
    destruct v; simpl; try done. intros [= <-]. eauto.
  - intros (b & -> & Hb). simpl. by rewrite Hb.
Qed.

Lemma readChunk_not_Diverged w (f : string) : readChunk w f ≠ Diverged.
Proof.
  unfold readChunk, readFileSync, deserialize.
  destruct (disk w !! f) as [b|]; simpl; [|done].
  destruct (v8_deserialize b) as [v|]; simpl; [|done]. by destruct v.
Qed.

Lemma readChunk_ENOENT w (f p : string) :
  readChunk w f = Threw (ENOENT p) → p = f ∧ disk w !! f = None.
Proof.
  unfold readChunk, readFileSync, deserialize.
  destruct (disk w !! f) as [b|]; simpl; [|by intros [= <-]].
  destruct (v8_deserialize b) as [v|]; simpl; [|done]. by destruct v.
Qed.

Lemma readChunk_DecodeError w (f : string) :
  readChunk w f = Threw DecodeError →
  ∃ b, disk w !! f = Some b ∧ v8_deserialize b = None.
Proof.
  unfold readChunk, readFileSync, deserialize.
  destruct (disk w !! f) as [b|]; simpl; [|done].
  destruct (v8_deserialize b) as [v|] eqn:Hv; simpl; [by destruct v|].
  intros _. by exists b.
Qed.

Lemma readChunk_IllTyped w (f : string) :
  readChunk w f = IllTyped →
  ∃ b v, disk w !! f = Some b ∧ v8_deserialize b = Some v ∧ ∀ l, v ≠ VEntries l.
Proof.
  unfold readChunk, readFileSync, deserialize.
  destruct (disk w !! f) as [b|]; simpl; [|done].
  destruct (v8_deserialize b) as [v|] eqn:Hv; simpl; [|done].
  destruct v; simpl; try done; intros _; eexists _, _; by repeat split.
Qed.

(** X5. The outcomes of [readFromCache], for a [CWD] without pattern
    characters.  When the core file decodes to a state and every chunk file
    that [glob] lists decodes to an array of entries, it returns.  It does not loop.  Without a core file it throws
    the error of the missing file, and the core file is the only file it
    can find missing, since the chunk files it reads are those that [glob]
    has listed.  When the core file does not decode it throws the error of
    the decoder, and whenever the embedding has this error some file among
    those read does not decode.  The embedding leaves the outcome open
    ([IllTyped]) only when a file decodes to a value of another shape than
    the one annotated. *)
Theorem readFromCache_outcomes w :
  is_literal CWD = true →
  ((∃ b s, disk w !! file = Some b ∧ v8_deserialize b = Some (VState s)) →
   (∀ f, f ∈ globSync chunkFilePrefix w →
      ∃ b l, disk w !! f = Some b ∧ v8_deserialize b = Some (VEntries l)) →
   ∃ obj, readFromCache w = Returned obj) ∧
  readFromCache w ≠ Diverged ∧
  (disk w !! file = None → readFromCache w = Threw (ENOENT file)) ∧
  (∀ p, readFromCache w = Threw (ENOENT p) → p = file ∧ disk w !! file = None) ∧
  (∀ b, disk w !! file = Some b → v8_deserialize b = None →
     readFromCache w = Threw DecodeError) ∧
  (readFromCache w = Threw DecodeError →
     ∃ f b, (f = file ∨ f ∈ globSync chunkFilePrefix w) ∧
       disk w !! f = Some b ∧ v8_deserialize b = None) ∧
  (readFromCache w = IllTyped →
     (∃ b v, disk w !! file = Some b ∧ v8_deserialize b = Some v ∧
        ∀ s, v ≠ VState s) ∨
     (∃ f b v, f ∈ globSync chunkFilePrefix w ∧ disk w !! f = Some b ∧
        v8_deserialize b = Some v ∧ ∀ l, v ≠ VEntries l)).
Proof.
  intros _.
  assert (∀ b s, disk w !! file = Some b → v8_deserialize b = Some (VState s) →
    readFromCache w =
      chunks ← mapOutcome (readChunk w) (globSync chunkFilePrefix w);
      if decide (length chunks ≠ 0%nat)
      then Returned (set_nodes (Some (JsMap.of_entries (concat chunks))) s)
      else Returned s) as Hcore.
  { intros b s Hb Hs. unfold readFromCache, readFileSync, deserialize.
    rewrite Hb. simpl. rewrite Hs. done. }
  split; [|split; [|split; [|split; [|split; [|split]]]]].
  - intros (b & s & Hb & Hs) Hchunks. rewrite (Hcore b s Hb Hs).
    destruct (mapOutcome_total (readChunk w) (globSync chunkFilePrefix w))
      as [chunks ->].
    { intros f Hf. destruct (Hchunks f Hf) as (b' & l & ? & ?).
      exists l. apply readChunk_Returned. eauto. }
    simpl. case_decide; eauto.
  - unfold readFromCache, readFileSync, deserialize.
    destruct (disk w !! file) as [b|]; simpl; [|done].
    destruct (v8_deserialize b) as [v|]; simpl; [|done].
    destruct v as [s| | |]; simpl; try done.
    destruct (mapOutcome (readChunk w) (globSync chunkFilePrefix w))
      as [chunks| | |] eqn:Hchunks; simpl; [by case_decide|done| |done].
    apply mapOutcome_Diverged in Hchunks as (f & _ & Hf).
    by apply readChunk_not_Diverged in Hf.
  - intros Hnone. unfold readFromCache, readFileSync. by rewrite Hnone.
  - intros p. unfold readFromCache, readFileSync, deserialize.
    destruct (disk w !! file) as [b|] eqn:Hb; simpl; [|by intros [= <-]].
    destruct (v8_deserialize b) as [v|]; simpl; [|done].
    destruct v as [s| | |]; simpl; try done.
    destruct (mapOutcome (readChunk w) (globSync chunkFilePrefix w))
      as [chunks| | |] eqn:Hchunks; simpl; [by case_decide| |done..].
    intros [= ->]. apply mapOutcome_Threw in Hchunks as (f & Hf & Hthrew).
    apply readChunk_ENOENT in Hthrew as [-> Hmissing].
    apply elem_of_globSync in Hf as [_ [b' Hb']]. congruence.
  - intros b Hb Hnone. unfold readFromCache, readFileSync, deserialize.
    rewrite Hb. simpl. by rewrite Hnone.
  - unfold readFromCache, readFileSync, deserialize.
    destruct (disk w !! file) as [b|] eqn:Hb; simpl; [|done].
    destruct (v8_deserialize b) as [v|] eqn:Hv; simpl;
      [|intros _; exists file, b; by repeat split; [left|..]].
    destruct v as [s| | |]; simpl; try done.
    destruct (mapOutcome (readChunk w) (globSync chunkFilePrefix w))
      as [chunks| | |] eqn:Hchunks; simpl; [by case_decide| |done..].
    intros [= ->]. apply mapOutcome_Threw in Hchunks as (f & Hf & Hthrew).
    apply readChunk_DecodeError in Hthrew as (b' & Hb' & Hnone).
    exists f, b'. split; [by right|done].
  - unfold readFromCache, readFileSync, deserialize.
    destruct (disk w !! file) as [b|] eqn:Hb; simpl; [|done].
    destruct (v8_deserialize b) as [v|] eqn:Hv; simpl; [|done].
    destruct v as [s| | |]; simpl;
      try (intros _; left; eexists _, _; by repeat split).
    destruct (mapOutcome (readChunk w) (globSync chunkFilePrefix w))
      as [chunks| | |] eqn:Hchunks; simpl; [by case_decide|done..|].
    intros _. right. apply mapOutcome_IllTyped in Hchunks as (f & Hf & Hill).
    apply readChunk_IllTyped in Hill as (b' & v & ? & ? & ?).
    by exists f, b', v.
Qed.

(** X6. A state without nodes is written and read back as it is, whatever
    chunk files an earlier run has left, when [CWD] has no pattern
    character and the core state serializes to a buffer of admissible
    length: the call returns for every fuel, without calling the estimator
    and without writing a chunk file; no chunk file is left; and
    [readFromCache] then returns the state. *)
Theorem write_then_read_without_nodes (fuel : nat) contents w :
  is_literal CWD = true →
  nodes contents = None →
  buffers_fit (events_since w (writeToCache fuel contents w).2) →
  (writeToCache fuel contents w).1.1 = Returned () ∧
  estimator_calls (events_since w (writeToCache fuel contents w).2) = [] ∧
  chunk_writes (events_since w (writeToCache fuel contents w).2) = [] ∧
  globSync chunkFilePrefix (writeToCache fuel contents w).2 = [] ∧
  readFromCache (writeToCache fuel contents w).2 = Returned contents.
Proof.
  intros _ Hnodes _.
  destruct (writeToCache_events fuel contents w) as (j & _ & _ & -> & -> & _).
  rewrite Hnodes. split; [|split; [done|split; [done|]]].
  { by rewrite writeToCache_eq, Hnodes. }
  rewrite writeToCache_eq, Hnodes. cbn [fst snd].
  split; [apply globSync_prepare|].
  rewrite (readFromCache_unfold (prepare contents w) _ (set_nodes None contents)
             (disk_prepare_file contents w) (deserialize_serialize _) []).
  - simpl. destruct contents as [n r]. simpl in Hnodes. by subst n.
  - by rewrite globSync_prepare.
Qed.

(** *** What a call leaves does not depend on earlier calls *)

Lemma writeChunks_indep (fuel : nat) values (chunkSize chunks : JsNum) (i : Z) w w' :
  ∃ j : Z, 0 ≤ j ∧
    (writeChunks fuel values chunkSize chunks i w).1 =
      (writeChunks fuel values chunkSize chunks i w').1 ∧
    (writeChunks fuel values chunkSize chunks i w).2 =
      storeChunks values chunkSize (seqZ i j) w ∧
    (writeChunks fuel values chunkSize chunks i w').2 =
      storeChunks values chunkSize (seqZ i j) w'.
Proof.
  revert i w w'. induction fuel as [|fuel IH]; intros i w w'.
  - exists 0. simpl. by destruct (js_lt i chunks).
  - simpl. destruct (js_lt i chunks) eqn:Hlt.
    + destruct (IH (i + 1)
        (writeFileSync (chunkFile i)
           (v8_serialize (VEntries (chunkSlice values i chunkSize))) w)
        (writeFileSync (chunkFile i)
           (v8_serialize (VEntries (chunkSlice values i chunkSize))) w'))
        as (j & Hj & Ho & Hw & Hw').
      exists (j + 1). split; [lia|]. split; [done|].
      rewrite Hw, Hw'. rewrite (seqZ_cons i) by lia.
      by replace (Z.pred (j + 1)) with j by lia.
    + by exists 0.
Qed.

Lemma disk_storeChunks_eq values (chunkSize : JsNum) (indices : list Z) w w' :
  disk w = disk w' →
  disk (storeChunks values chunkSize indices w) =
  disk (storeChunks values chunkSize indices w').
Proof.
  revert w w'. induction indices as [|i indices IH]; intros w w' Hd; [done|].
  apply (IH (writeFileSync _ _ w) (writeFileSync _ _ w')). simpl. by rewrite Hd.
Qed.

Lemma disk_prepare_eq contents w w' :
  (∀ f, f ≠ file → matches_star chunkFilePrefix f = false →
     disk w !! f = disk w' !! f) →
  disk (prepare contents w) = disk (prepare contents w').
Proof.
  intros Hother. apply map_eq. intros f.
  destruct (decide (f = file)) as [->|Hne]; [by rewrite !disk_prepare_file|].
  destruct (matches_star chunkFilePrefix f) eqn:Hf.
  - by rewrite !disk_prepare_chunk.
  - rewrite !disk_prepare_other by done. by apply Hother.
Qed.

Lemma writeToCache_same_files (fuel : nat) contents w w' :
  (∀ f, f ≠ file → matches_star chunkFilePrefix f = false →
     disk w !! f = disk w' !! f) →
  (writeToCache fuel contents w).1.1 = (writeToCache fuel contents w').1.1 ∧
  disk (writeToCache fuel contents w).2 = disk (writeToCache fuel contents w').2.
Proof.
  intros Hother%(disk_prepare_eq contents). rewrite !writeToCache_eq.
  destruct (nodes contents) as [m|]; [|done]. cbv zeta.
  destruct (guessSafeChunkSize fuel m) as [chunkSize|]; [|done]. cbn [fst snd].
  destruct (writeChunks_indep fuel m chunkSize
    (Math_ceil_div (Z.of_nat (length m)) chunkSize) 0
    (emit (CallGuessSafeChunkSize m) (prepare contents w))
    (emit (CallGuessSafeChunkSize m) (prepare contents w')))
    as (j & _ & -> & -> & ->).
  split; [done|]. by apply disk_storeChunks_eq.
Qed.

Lemma disk_writeToCache_other (fuel : nat) contents w (f : string) :
  f ≠ file → matches_star chunkFilePrefix f = false →
  disk (writeToCache fuel contents w).2 !! f = disk w !! f.
Proof.
  intros Hne Hf.
  destruct (writeToCache_events fuel contents w) as (j & Hj & -> & _).
  destruct (nodes contents) as [m|]; [|by apply disk_prepare_other].
  destruct (guessSafeChunkSize fuel m) as [chunkSize|].
  - rewrite disk_storeChunks_other.
    + rewrite disk_emit. by apply disk_prepare_other.
    + intros i Hi%elem_of_seqZ ->. rewrite matches_chunkFile in Hf by lia. done.
  - rewrite disk_emit. by apply disk_prepare_other.
Qed.

Lemma readFromCache_disk w w' : disk w = disk w' → readFromCache w = readFromCache w'.
Proof.
  destruct w as [d l], w' as [d' l']. simpl. intros ->. reflexivity.
Qed.

(** X7. For a [CWD] without pattern characters, the files after a call do
    not depend on the calls before it: writing a state after any other
    state leaves the same disk, with the same outcome, as writing it alone,
    and so reads back the same.  More generally, the outcome of a call and
    the disk after it are the same from any two disks that differ in the
    cache files only, whatever these hold. *)
Theorem writeToCache_forgets_history (fuel1 fuel : nat)
  (earlier contents : ICachedReduxState IReduxNode Rest) w :
  is_literal CWD = true →
  ((writeToCache fuel contents (writeToCache fuel1 earlier w).2).1.1 =
     (writeToCache fuel contents w).1.1 ∧
   disk (writeToCache fuel contents (writeToCache fuel1 earlier w).2).2 =
     disk (writeToCache fuel contents w).2 ∧
   readFromCache (writeToCache fuel contents (writeToCache fuel1 earlier w).2).2 =
     readFromCache (writeToCache fuel contents w).2) ∧
  (∀ w',
     (∀ f, f ≠ file → matches_star chunkFilePrefix f = false →
        disk w' !! f = disk w !! f) →
     (writeToCache fuel contents w').1.1 = (writeToCache fuel contents w).1.1 ∧
     disk (writeToCache fuel contents w').2 = disk (writeToCache fuel contents w).2).
Proof.
  intros _. split; [|intros w' Hsame; by apply writeToCache_same_files].
  destruct (writeToCache_same_files fuel contents
    (writeToCache fuel1 earlier w).2 w) as [Ho Hd].
  { intros f Hne Hf. by apply disk_writeToCache_other. }
  split; [done|]. split; [done|]. by apply readFromCache_disk.
Qed.

(** *** The estimate depends on the samples alone *)

Lemma sampleLoop_ext (fuel : nat) values values' (i maxSize : Z) :
  length values = length values' →
  (∀ k, 0 ≤ k →
     sampleSize values (i + k * (Z.of_nat (length values) / 11)) =
     sampleSize values' (i + k * (Z.of_nat (length values) / 11))) →
  sampleLoop fuel values i maxSize = sampleLoop fuel values' i maxSize.
Proof.
  intros Hlen. revert i maxSize.
  induction fuel as [|fuel IH]; intros i maxSize Hsame;
    cbn [sampleLoop]; rewrite <- Hlen; [done|].
  destruct (i <? Z.of_nat (length values)); [|done].
  pose proof (Hsame 0 ltac:(lia)) as H0. rewrite Z.mul_0_l, Z.add_0_r in H0.
  rewrite H0. apply IH. intros k Hk.
  replace (i + Z.of_nat (length values) / 11 + k * (Z.of_nat (length values) / 11))
    with (i + (k + 1) * (Z.of_nat (length values) / 11)) by lia.
  apply Hsame. lia.
Qed.

(** X8. The estimate depends on the sampled entries alone: two arrays of
    the same length that agree at the multiples of the stride get the same
    chunk size (or both none), whatever their other entries are, a larger
    one than any sample included. *)
Theorem guessSafeChunkSize_ignores_unsampled (fuel : nat) values values' :
  length values = length values' →
  (∀ k, 0 ≤ k →
     values !! Z.to_nat (k * (Z.of_nat (length values) / 11)) =
     values' !! Z.to_nat (k * (Z.of_nat (length values) / 11))) →
  guessSafeChunkSize fuel values = guessSafeChunkSize fuel values'.
Proof.
  intros Hlen Hsame. unfold guessSafeChunkSize.
  rewrite (sampleLoop_ext fuel values values' 0 0 Hlen); [done|].
  intros k Hk. unfold sampleSize. rewrite Z.add_0_l. by rewrite (Hsame k Hk).
Qed.

(** *** The chunks written so far *)

Lemma concat_slices_take {A : Type} (l : list A) (c : Z) (k : nat) :
  0 < c →
  concat ((λ i, slice l (i * c) (i * c + c)) <$> seqZ 0 (Z.of_nat k)) =
    take (k * Z.to_nat c) l.
Proof.
  intros Hc.
  rewrite <- (concat_slices (take (k * Z.to_nat c) l) c k Hc)
    by (rewrite length_take; lia).
  f_equal. apply list_fmap_ext. intros n i [-> Hi]%lookup_seqZ. simpl.
  rewrite !slice_take_drop by lia. rewrite !take_drop_commute, take_take.
  do 2 f_equal. nia.
Qed.

Lemma readFromCache_storeChunks contents m (c j : Z) w :
  nodes contents = Some m → NoDup m.*1 → 0 < c → 0 ≤ j →
  ∃ obj,
    readFromCache
      (storeChunks m (Num c) (seqZ 0 j)
         (emit (CallGuessSafeChunkSize m) (prepare contents w))) = Returned obj ∧
    rest obj = rest contents ∧
    (nodes obj = None ↔ j = 0) ∧
    JsMap.view (default [] (nodes obj)) =
      JsMap.view (take (Z.to_nat j * Z.to_nat c) m).
Proof.
  intros Hm Hnd Hc Hj.
  set (w' := storeChunks m (Num c) (seqZ 0 j)
               (emit (CallGuessSafeChunkSize m) (prepare contents w))).
  assert (globSync chunkFilePrefix w' ≡ₚ chunkFile <$> seqZ 0 j) as Hglob.
  { apply globSync_storeChunks; [|apply Forall_seqZ; intros; lia|apply NoDup_seqZ].
    intros g Hmatch. by apply disk_written_clean. }
  assert (disk w' !! file =
    Some (v8_serialize (VState (set_nodes None contents)))) as Hfile.
  { unfold w'. rewrite disk_storeChunks_other; [apply disk_prepare_file|].
    intros i _ Heq. by apply (chunkFile_ne_file i). }
  set (chunkOf := λ f,
    match readChunk w' f with Returned chunk => chunk | _ => [] end).
  assert (mapOutcome (readChunk w') (globSync chunkFilePrefix w') =
    Returned (chunkOf <$> globSync chunkFilePrefix w')) as Hchunks.
  { apply mapOutcome_Returned. intros f Hf. rewrite Hglob in Hf.
    apply list_elem_of_fmap in Hf as (i & -> & Hi). unfold chunkOf, w'.
    by rewrite readChunk_chunkFile. }
  assert (concat (chunkOf <$> globSync chunkFilePrefix w') ≡ₚ
          take (Z.to_nat j * Z.to_nat c) m) as Hconcat.
  { rewrite (concat_Permutation _ (chunkOf <$> (chunkFile <$> seqZ 0 j)))
      by by rewrite Hglob.
    rewrite <- list_fmap_compose.
    rewrite (list_fmap_ext _ (λ i, slice m (i * c) (i * c + c)) (seqZ 0 j)).
    - rewrite <- (Z2Nat.id j) at 1 by done. by rewrite concat_slices_take.
    - intros ? i [-> ?]%lookup_seqZ. simpl. unfold chunkOf, w'.
      by rewrite readChunk_chunkFile by (apply elem_of_seqZ; lia). }
  pose proof (readFromCache_unfold w' _ (set_nodes None contents) Hfile
    (deserialize_serialize _) _ Hchunks) as Hread.
  assert (length (globSync chunkFilePrefix w') = Z.to_nat j) as Hlen.
  { by rewrite Hglob, length_fmap, length_seqZ. }
  destruct (decide (j = 0)) as [->|Hj0].
  - rewrite decide_False in Hread by (rewrite length_fmap, Hlen; simpl; lia).
    exists (set_nodes None contents). by repeat split.
  - rewrite decide_True in Hread by (rewrite length_fmap, Hlen; lia).
    eexists. split; [exact Hread|]. split; [done|]. split; [done|]. simpl.
    apply JsMap_view_of_entries; [|done].
    rewrite fmap_take. eapply sublist_NoDup; [done|apply sublist_take].
Qed.

(** The chunks that a call has written when it stops: whole slices of a
    positive width, the last of them not empty. *)
Lemma writeToCache_chunks_written (fuel : nat) contents m w :
  nodes contents = Some m →
  (∀ e, e ∈ m → 0 < encodedSize e ≤ kMaxLength) →
  ∃ c j : Z, 0 < c ∧ 0 ≤ j ∧
    (writeToCache fuel contents w).2 =
      storeChunks m (Num c) (seqZ 0 j)
        (emit (CallGuessSafeChunkSize m) (prepare contents w)) ∧
    (0 < j → (j - 1) * c < Z.of_nat (length m)) ∧
    ((writeToCache fuel contents w).1.1 = Returned () →
       Z.of_nat (length m) ≤ j * c).
Proof.
  intros Hm Hfit.
  destruct (writeToCache_events fuel contents w) as (j & Hj & Hw & _ & _ & Hbound).
  rewrite Hm in Hw. specialize (λ C, Hbound C m Hm).
  destruct (guessSafeChunkSize fuel m) as [chunkSize|] eqn:Hg.
  - destruct (Hbound _ eq_refl) as [Hlt Hret].
    destruct (chunkSize_and_count_of_entries _ _ _ Hfit Hg)
      as [(-> & -> & Hceil)|(c & Hlen & -> & Hc & _ & Hceil)];
      rewrite Hceil in Hlt, Hret; simpl in Hlt, Hret.
    + assert (j = 0) as ->.
      { destruct (decide (j = 0)); [done|].
        specialize (Hlt 0 ltac:(lia)). done. }
      exists 1, 0. split; [done|]. split; [done|]. split; [by rewrite Hw|].
      split; [lia|]. intros _. simpl. lia.
    + pose proof (Z_ceil_div_bounds (Z.of_nat (length m)) c ltac:(lia)) as Hb.
      exists c, j. split; [lia|]. split; [done|]. split; [done|]. split.
      * intros Hpos. specialize (Hlt (j - 1) ltac:(lia)).
        apply Z.ltb_lt in Hlt. nia.
      * intros Hr%Hret%Z.ltb_ge. nia.
  - exists 1, 0. split; [done|]. split; [done|]. split; [by rewrite Hw|].
    split; [lia|]. rewrite writeToCache_eq, Hm. cbv zeta. by rewrite Hg.
Qed.

(** *** The disk between two steps of a call *)

Lemma take_seqZ (k : nat) (j : Z) :
  take k (seqZ 0 j) = seqZ 0 (Z.min j (Z.of_nat k)).
Proof.
  destruct (decide (j ≤ Z.of_nat k)) as [Hle|Hgt].
  - rewrite Z.min_l by done. apply take_ge. rewrite length_seqZ. lia.
  - rewrite Z.min_r by lia.
    assert (seqZ 0 j = seqZ 0 (Z.of_nat k) ++ seqZ (0 + Z.of_nat k) (j - Z.of_nat k))
      as -> by (rewrite <- seqZ_app by lia; f_equal; lia).
    apply take_app_length'. rewrite length_seqZ. lia.
Qed.

Lemma disk_after_app (events events' : list (Event IReduxNode Buffer))
  (d : gmap string Buffer) :
  disk_after (events ++ events') d = disk_after events' (disk_after events d).
Proof. apply foldl_app. Qed.

Lemma disk_after_unlinks (files : list string) w :
  disk_after (Unlink (Buffer := Buffer) (IReduxNode := IReduxNode) <$> files)
    (disk w) =
  disk (unlinkAll files w).
Proof.
  revert w. induction files as [|f files IH]; intros w; [done|].
  change (unlinkAll (f :: files) w) with (unlinkAll files (unlinkSync f w)).
  by rewrite <- IH.
Qed.

Lemma disk_after_chunks values (chunkSize : JsNum) (indices : list Z) w :
  disk_after
    ((λ i, WriteFile (IReduxNode := IReduxNode) (chunkFile i)
             (chunkData values chunkSize i)) <$> indices)
    (disk w) =
  disk (storeChunks values chunkSize indices w).
Proof.
  revert w. induction indices as [|i indices IH]; intros w; [done|].
  change (storeChunks values chunkSize (i :: indices) w) with
    (storeChunks values chunkSize indices
       (writeFileSync (chunkFile i) (chunkData values chunkSize i) w)).
  by rewrite <- IH.
Qed.

(** The disk after the first actions of a call, the writing of the core
    file among them, is the disk that the call prepares with the chunks
    written so far. *)
Lemma disk_after_steps contents m (chunkSize : JsNum) (j : Z) w (k : nat) :
  nodes contents = Some m → 0 ≤ j → (2 ≤ k)%nat →
  disk_after
    (take (length (globSync chunkFilePrefix w) + k)
       ((Unlink <$> globSync chunkFilePrefix w) ++
        [SetNodes None;
         WriteFile file (v8_serialize (VState (set_nodes None contents)));
         SetNodes (Some m);
         CallGuessSafeChunkSize m] ++
        ((λ i, WriteFile (chunkFile i) (chunkData m chunkSize i)) <$> seqZ 0 j)))
    (disk w) =
  disk (storeChunks m chunkSize (seqZ 0 (Z.min j (Z.of_nat (k - 4))))
          (emit (CallGuessSafeChunkSize m) (prepare contents w))).
Proof.
  intros Hm Hj Hk.
  rewrite <- (length_fmap (Unlink (Buffer := Buffer) (IReduxNode := IReduxNode))
                (globSync chunkFilePrefix w)) at 1.
  rewrite take_app_add, disk_after_app, disk_after_unlinks.
  destruct k as [|[|[|[|k]]]]; [lia|lia|..].
  - rewrite Z.min_r by lia. done.
  - rewrite Z.min_r by lia. done.
  - replace (S (S (S (S k))) - 4)%nat with k by lia.
    change (S (S (S (S k)))) with (4 + k)%nat.
    rewrite take_app_add' by done.
    rewrite <- fmap_take, take_seqZ, disk_after_app.
    rewrite <- disk_after_chunks. done.
Qed.

(** X9. The cache between two steps of a call.  For a [CWD] without
    pattern characters and entries with pairwise distinct keys that
    serialize to buffers of admissible length: the disk after a call is the
    disk before it with the logged actions performed; and the disk after
    any number of these actions that includes the writing of the core file
    and writes buffers that fit reads back, without error, as the state
    with the first so many of its entries - the other fields as written,
    [nodes] undefined when no entry is there yet and else the mapping of a
    prefix of the entries, which is all of them when the call has
    returned.  This is the disk that a call leaves when it stops between
    two of its actions, as it does when the estimator does not return; it
    says nothing of a file that is written in part. *)
Theorem partial_write_reads_back (fuel n : nat) contents m w :
  is_literal CWD = true →
  nodes contents = Some m → NoDup m.*1 →
  (∀ e, e ∈ m → 0 < encodedSize e ≤ kMaxLength) →
  (length (globSync chunkFilePrefix w) + 2 ≤ n)%nat →
  buffers_fit (take n (events_since w (writeToCache fuel contents w).2)) →
  disk (writeToCache fuel contents w).2 =
    disk_after (events_since w (writeToCache fuel contents w).2) (disk w) ∧
  ∃ (written : nat) obj,
    (written ≤ length m)%nat ∧
    readFromCache
      {| disk := disk_after
                   (take n (events_since w (writeToCache fuel contents w).2))
                   (disk w);
         log := [] |} = Returned obj ∧
    rest obj = rest contents ∧
    (nodes obj = None ↔ written = 0%nat) ∧
    JsMap.view (default [] (nodes obj)) = JsMap.view (take written m) ∧
    ((length (events_since w (writeToCache fuel contents w).2) ≤ n)%nat →
     (writeToCache fuel contents w).1.1 = Returned () → written = length m).
Proof.
  intros _ Hm Hnd Hfit Hn _.
  destruct (writeToCache_chunks_written fuel contents m w Hm Hfit)
    as (c & j & Hc & Hj & Hw & Hlast & Hret).
  rewrite Hw, (events_since_storeChunks _ _ _ _ _ Hm).
  set (events := (Unlink <$> globSync chunkFilePrefix w) ++
    [SetNodes None;
     WriteFile file (v8_serialize (VState (set_nodes None contents)));
     SetNodes (Some m);
     CallGuessSafeChunkSize m] ++
    ((λ i, WriteFile (chunkFile i) (chunkData m (Num c) i)) <$> seqZ 0 j)).
  assert (length events =
    (length (globSync chunkFilePrefix w) + (4 + Z.to_nat j))%nat) as Hlen.
  { unfold events. rewrite !length_app, !length_fmap, length_seqZ. simpl. lia. }
  split.
  { rewrite <- (take_ge events (length events)) by done. rewrite Hlen.
    unfold events. rewrite (disk_after_steps contents m (Num c) j w _ Hm Hj) by lia.
    by rewrite Z.min_l by lia. }
  set (k := (n - length (globSync chunkFilePrefix w))%nat).
  set (j' := Z.min j (Z.of_nat (k - 4))).
  assert (disk_after (take n events) (disk w) =
    disk (storeChunks m (Num c) (seqZ 0 j')
            (emit (CallGuessSafeChunkSize m) (prepare contents w)))) as ->.
  { replace n with (length (globSync chunkFilePrefix w) + k)%nat by lia.
    apply disk_after_steps; [done|done|lia]. }
  destruct (readFromCache_storeChunks contents m c j' w Hm Hnd Hc ltac:(lia))
    as (obj & Hread & Hrest & Hnone & Hview).
  exists (length (take (Z.to_nat j' * Z.to_nat c) m)), obj.
  split; [rewrite length_take; lia|]. split.
  { rewrite <- Hread. by apply readFromCache_disk. }
  split; [done|]. split; [|split].
  - rewrite Hnone, length_take. split; [intros ->; simpl; lia|].
    intros Hzero. destruct (decide (j' = 0)) as [|Hne]; [done|]. nia.
  - rewrite Hview. f_equal. rewrite length_take.
    destruct (decide (Z.to_nat j' * Z.to_nat c ≤ length m)%nat).
    + by rewrite Nat.min_l by done.
    + rewrite Nat.min_r by lia. rewrite !take_ge by lia. done.
  - intros Hall Hr%Hret. rewrite length_take. fold events in Hall. nia.
Qed.

(** *** What the estimate bounds *)

Lemma sumSizes_le (chunk : list (Entry IReduxNode)) (bound : Z) :
  (∀ e, e ∈ chunk → encodedSize e ≤ bound) →
  sumSizes chunk ≤ Z.of_nat (length chunk) * bound.
Proof.
  induction chunk as [|e chunk IH]; intros Hb; simpl; [lia|].
  specialize (Hb e ltac:(left)) as He.
  specialize (IH (λ e' He', Hb e' ltac:(by right))). lia.
Qed.

(** X11. When the estimator returns the chunk size [c] and no entry
    encodes to more than the largest sample, the entries of every chunk
    encode, one by one, to at most [TARGET_BYTES] in total; the chunk size
    is the largest with this property for entries of that size. *)
Theorem chunk_sizes_within_target (fuel : nat) m (c i : Z) :
  guessSafeChunkSize fuel m = Some (Num c) →
  (∀ e, e ∈ m → encodedSize e ≤ maxObservedSize m) →
  0 ≤ i →
  0 < maxObservedSize m ∧
  c * maxObservedSize m ≤ TARGET_BYTES < (c + 1) * maxObservedSize m ∧
  sumSizes (chunkSlice m i (Num c)) ≤ TARGET_BYTES.
Proof.
  intros Hg Hworst Hi.
  destruct (guessSafeChunkSize_Some _ _ _ Hg) as [[_ [=]]|[Hlen Hc]].
  unfold Math_floor_div in Hc.
  destruct (maxObservedSize m =? 0) eqn:H0; [done|]. injection Hc as ->.
  apply Z.eqb_neq in H0.
  assert (0 ≤ maxObservedSize m) as Hnonneg by apply foldl_max_ge_init.
  assert (0 < maxObservedSize m) as Hpos by lia.
  pose proof (Z.div_mod TARGET_BYTES (maxObservedSize m) H0) as Hdiv.
  pose proof (Z.mod_pos_bound TARGET_BYTES (maxObservedSize m) Hpos) as Hmod.
  assert (0 ≤ TARGET_BYTES / maxObservedSize m) as Hc0.
  { apply Z.div_pos; [done|lia]. }
  split; [done|]. split; [nia|].
  etrans; [apply (sumSizes_le _ (maxObservedSize m))|].
  - intros e He. apply Hworst. unfold chunkSlice in He.
    rewrite slice_take_drop in He by (try apply Z.mul_nonneg_nonneg; done).
    by apply (subseteq_drop (Z.to_nat (i * (TARGET_BYTES / maxObservedSize m)))),
       (subseteq_take (Z.to_nat (TARGET_BYTES / maxObservedSize m))).
  - unfold chunkSlice.
    pose proof (length_slice m (i * (TARGET_BYTES / maxObservedSize m))
                  (TARGET_BYTES / maxObservedSize m)
                  (Z.mul_nonneg_nonneg _ _ Hi Hc0) Hc0) as Hlen'.
    set (c := TARGET_BYTES / maxObservedSize m) in *.
    assert (Z.of_nat (length (slice m (i * c) (i * c + c))) ≤ c) by lia.
    nia.
Qed.

End Properties.

(** ** The order in which the chunk files are read *)

Section Orders.
Context {IReduxNode Rest Buffer : Type} {RT : Runtime IReduxNode Rest Buffer}.
Variable sort : list string → list string.
Hypothesis alphasort_perm : ∀ l, alphasort l ≡ₚ l.
Hypothesis sort_perm : ∀ l, sort l ≡ₚ l.

Lemma globSync_with_alphasort (prefix : string) (w : World IReduxNode Buffer) :
  globSync (RT := with_alphasort sort) prefix w ≡ₚ globSync prefix w.
Proof. unfold globSync. simpl. by rewrite sort_perm, alphasort_perm. Qed.

Lemma mapOutcome_Permutation {A B : Type} (g : A → Outcome (list B))
  (l l' : list A) (ys : list (list B)) :
  mapOutcome g l = Returned ys → l' ≡ₚ l →
  ∃ ys', mapOutcome g l' = Returned ys' ∧ ys' ≡ₚ ys.
Proof.
  intros Hys. apply mapOutcome_inv in Hys.
  set (h := λ x, match g x with Returned y => y | _ => [] end).
  assert (ys = h <$> l) as ->.
  { induction Hys as [|x y l ys Hx _ IH]; [done|].
    rewrite fmap_cons, <- IH. unfold h. by rewrite Hx. }
  intros Hperm.
  assert (∀ x, x ∈ l → g x = Returned (h x)) as Hh.
  { intros x Hx. apply list_elem_of_lookup in Hx as [n Hn].
    destruct (Forall2_lookup_l _ _ _ _ _ Hys Hn) as (y & _ & Hy).
    unfold h. by rewrite Hy. }
  exists (h <$> l'). split; [|by rewrite Hperm].
  apply mapOutcome_Returned. intros x Hx. apply Hh. by rewrite <- Hperm.
Qed.

(** X10. "Since all nodes go into a Map, the order of reading them is not
    relevant": when the chunk files decode and no key occurs twice in
    them, [readFromCache] returns a state with the same fields and the
    same mapping from keys to nodes in whatever order [glob] lists the
    chunk files. *)
Theorem readFromCache_any_order (w : World IReduxNode Buffer) (b : Buffer)
  (s : ICachedReduxState IReduxNode Rest) (chunks : list (list (Entry IReduxNode))) :
  disk w !! file = Some b → v8_deserialize b = Some (VState s) →
  mapOutcome (readChunk w) (globSync chunkFilePrefix w) = Returned chunks →
  NoDup (concat chunks).*1 →
  ∃ obj obj',
    readFromCache w = Returned obj ∧
    readFromCache (RT := with_alphasort sort) w = Returned obj' ∧
    rest obj' = rest obj ∧
    (nodes obj' = None ↔ nodes obj = None) ∧
    JsMap.view (default [] (nodes obj')) = JsMap.view (default [] (nodes obj)).
Proof.
  intros Hfile Hdec Hchunks Hnd.
  destruct (mapOutcome_Permutation (readChunk w)
              (globSync chunkFilePrefix w)
              (globSync (RT := with_alphasort sort) chunkFilePrefix w)
              chunks Hchunks (globSync_with_alphasort _ _))
    as (chunks' & Hchunks' & Hperm).
  pose proof (readFromCache_unfold w b s Hfile Hdec chunks Hchunks) as Hread.
  pose proof (readFromCache_unfold (RT := with_alphasort sort) w b s Hfile Hdec
                chunks' Hchunks') as Hread'.
  assert (length chunks' = length chunks) as Hlen by by rewrite Hperm.
  rewrite Hlen in Hread'.
  destruct (decide (length chunks ≠ 0%nat)) as [Hne|He].
  - eexists _, _. split; [exact Hread|]. split; [exact Hread'|].
    split; [done|]. split; [done|]. simpl.
    rewrite (JsMap_view_of_entries (concat chunks') (concat chunks));
      [|done|by apply concat_Permutation].
    symmetry. by apply JsMap_view_of_entries.
  - eexists _, _. split; [exact Hread|]. split; [exact Hread'|]. done.
Qed.

End Orders.

(** * The properties at the site with additive lengths *)

Section AdditiveSite.
#[local] Existing Instance additive_site.

Lemma additive_alphasort_perm (l : list string) : alphasort l ≡ₚ l.
Proof. apply merge_sort_Permutation. Qed.

Lemma additive_deserialize_serialize (v : JsValue Z string) :
  v8_deserialize (v8_serialize v) = Some v.
Proof. reflexivity. Qed.

(** 160 entries at 150 to a chunk, written in two chunk files of about
    1 GiB and of 11 bytes, and read back. *)
Lemma write_then_read_two_chunks :
  is_literal CWD = true ∧
  NoDup site_entries_large_first.*1 ∧
  buffers_fit
    (events_since stale_disk
       (writeToCache 200 site_state_large_first stale_disk).2) ∧
  ∃ w' obj,
    writeToCache 200 site_state_large_first stale_disk =
      (Returned (), site_state_large_first, w') ∧
    readFromCache w' = Returned obj ∧
    JsMap.view (default [] (nodes obj)) = JsMap.view site_entries_large_first.
Proof.
  assert (NoDup site_entries_large_first.*1) as Hnd.
  { apply (bool_decide_unpack _). vm_compute. exact I. }
  assert (buffers_fit
            (events_since stale_disk
               (writeToCache 200 site_state_large_first stale_disk).2)) as Hfit.
  { apply buffers_fit_b_spec. vm_compute. reflexivity. }
  split; [reflexivity|]. split; [exact Hnd|]. split; [exact Hfit|].
  destruct (write_then_read additive_alphasort_perm
              additive_deserialize_serialize 200
              site_state_large_first site_entries_large_first
              stale_disk eq_refl eq_refl Hnd)
    as (w' & obj & Hw & Hr & _ & _ & _ & Hview).
  - right. vm_compute. lia.
  - lia.
  - vm_compute. lia.
  - apply entries_fit_b_spec. vm_compute. reflexivity.
  - exact Hfit.
  - exists w', obj. split; [exact Hw|]. split; [exact Hr|exact Hview].
Defined.

Example write_then_read_two_chunks_files :
  guessSafeChunkSize 22 site_entries_large_first = Some (Num 150) ∧
  omap (λ e, match e with
             | WriteFile path data => Some (path, byteLength data)
             | _ => None
             end)
    (events_since stale_disk
       (writeToCache 200 site_state_large_first stale_disk).2) =
    [(file, 64); (chunkFile 0, 2 ^ 30 + 150); (chunkFile 1, 11)].
Proof. by vm_compute. Qed.

(** 11 entries of 256 MiB: the one chunk is longer than a buffer can be. *)
Example buffers_of_large_entries_do_not_fit :
  guessSafeChunkSize 22 (site_entries 11 (2 ^ 28)) = Some (Num 600) ∧
  entries_fit_b (site_entries 11 (2 ^ 28)) = true ∧
  buffers_fit_b
    (events_since fresh_disk
       (writeToCache 22 (site_state 11 (2 ^ 28)) fresh_disk).2) = false ∧
  kMaxLength < byteLength (chunkData (site_entries 11 (2 ^ 28)) (Num 600) 0).
Proof. by vm_compute. Qed.

(** 160 entries in two chunk files and the stale chunk 7, then 12 entries
    of 1 KiB: one chunk file is left. *)
Lemma writeToCache_shrinking_state :
  is_literal CWD = true ∧
  (11 ≤ length (site_entries 12 1024))%nat ∧
  ∃ w' : World Z (JsValue Z string),
    writeToCache 22 (site_state 12 1024)
      (writeToCache 22 site_state_large_first stale_disk).2 =
      (Returned (), site_state 12 1024, w') ∧
    Z.of_nat (length (globSync chunkFilePrefix w')) = 1.
Proof.
  assert (11 ≤ length (site_entries 12 1024))%nat as Hlen by (vm_compute; lia).
  split; [reflexivity|]. split; [exact Hlen|].
  destruct (writeToCache_no_orphans additive_alphasort_perm 22
              site_state_large_first (site_state 12 1024)
              stale_disk eq_refl) as (_ & Hleft & _).
  destruct (Hleft (site_entries 12 1024) eq_refl Hlen)
    as (c & count & w' & Hg & Hc & Hcount & Hrun & _ & Hfiles).
  { apply entries_fit_b_spec. vm_compute. reflexivity. }
  assert (guessSafeChunkSize 22 (site_entries 12 1024) =
          Some (Num 157286400)) as Hg' by (vm_compute; reflexivity).
  rewrite Hg' in Hg. injection Hg as <-.
  assert (length (site_entries 12 1024) = 12%nat) as Hl
    by (vm_compute; reflexivity).
  rewrite Hl in Hcount.
  assert (count = 1) as -> by lia.
  exists w'. split; [|exact Hfiles].
  apply Hrun; [lia|lia|]. apply buffers_fit_b_spec. vm_compute. reflexivity.
Defined.

Example writeToCache_shrinking_state_chunks :
  globSync chunkFilePrefix stale_disk = [chunkFile 7] ∧
  globSync chunkFilePrefix
    (writeToCache 22 site_state_large_first stale_disk).2 =
    [chunkFile 0; chunkFile 1] ∧
  globSync chunkFilePrefix
    (writeToCache 22 (site_state 12 1024)
       (writeToCache 22 site_state_large_first stale_disk).2).2 =
    [chunkFile 0].
Proof. by vm_compute. Qed.

(** 160 entries at 150 to a chunk, after the removal of the stale chunk
    and five more actions, the last of them the writing of the first
    chunk: the disk reads back with the first 150 entries. *)
Lemma partial_write_after_one_chunk :
  is_literal CWD = true ∧
  (length (globSync chunkFilePrefix stale_disk) + 2 ≤ 6)%nat ∧
  buffers_fit
    (take 6 (events_since stale_disk
               (writeToCache 22 site_state_large_first stale_disk).2)) ∧
  ∃ (written : nat) obj,
    readFromCache
      {| disk := disk_after
                   (take 6 (events_since stale_disk
                              (writeToCache 22 site_state_large_first
                                 stale_disk).2))
                   (disk stale_disk);
         log := [] |} = Returned obj ∧
    (nodes obj = None ↔ written = 0%nat) ∧
    JsMap.view (default [] (nodes obj)) =
      JsMap.view (take written site_entries_large_first).
Proof.
  assert (length (globSync chunkFilePrefix stale_disk) + 2 ≤ 6)%nat as Hn
    by (vm_compute; lia).
  assert (NoDup site_entries_large_first.*1) as Hnd.
  { apply (bool_decide_unpack _). vm_compute. exact I. }
  assert (buffers_fit
            (take 6 (events_since stale_disk
                       (writeToCache 22 site_state_large_first stale_disk).2)))
    as Hfit.
  { apply buffers_fit_b_spec. vm_compute. reflexivity. }
  split; [reflexivity|]. split; [exact Hn|]. split; [exact Hfit|].
  destruct (partial_write_reads_back additive_alphasort_perm
              additive_deserialize_serialize 22 6
              site_state_large_first site_entries_large_first
              stale_disk eq_refl eq_refl Hnd)
    as (_ & written & obj & _ & Hread & _ & Hnone & Hview & _).
  - apply entries_fit_b_spec. vm_compute. reflexivity.
  - exact Hn.
  - exact Hfit.
  - exists written, obj. split; [exact Hread|]. split; [exact Hnone|exact Hview].
Defined.

Example partial_write_after_one_chunk_value :
  step_of <$> events_since stale_disk
                (writeToCache 22 site_state_large_first stale_disk).2 =
    [RemoveStale; Detach; WriteCore; Reattach; Estimate; WriteChunk; WriteChunk] ∧
  match
    readFromCache
      {| disk := disk_after
                   (take 6 (events_since stale_disk
                              (writeToCache 22 site_state_large_first
                                 stale_disk).2))
                   (disk stale_disk);
         log := [] |}
  with
  | Returned obj => length (default [] (nodes obj))
  | _ => 0%nat
  end = 150%nat.
Proof. by vm_compute. Qed.

End AdditiveSite.

(** * The properties at the small site *)

#[local] Existing Instance site.

Lemma site_alphasort_perm (l : list string) : alphasort l ≡ₚ l.
Proof. apply merge_sort_Permutation. Qed.

Lemma site_deserialize_serialize (v : JsValue Z string) :
  v8_deserialize (v8_serialize v) = Some v.
Proof. reflexivity. Qed.

Lemma site_serialize_length (v : JsValue Z string) :
  0 < byteLength (v8_serialize v) ≤ kMaxLength.
Proof.
  destruct v as [s|l|e|]; simpl; unfold site_length, kMaxLength; simpl; lia.
Qed.

Lemma site_buffers_fit (events : list (Event Z (JsValue Z string))) :
  buffers_fit events.
Proof.
  intros path data _. apply (proj2 (site_serialize_length data)).
Qed.

(** The estimator on a single entry. *)
Lemma guessSafeChunkSize_one_entry :
  (1 ≤ length (site_entries 1 1024) ≤ 10)%nat ∧
  guessSafeChunkSize 1000 (site_entries 1 1024) = None.
Proof.
  assert (1 ≤ length (site_entries 1 1024) ≤ 10)%nat as H by (vm_compute; lia).
  split; [exact H|].
  apply (guessSafeChunkSize_diverges_below_11 1000 _ H).
Defined.

(** The estimator on 11 entries of 1 KiB each: 157286400 entries to a
    chunk, where a ceiling of 1.5 GiB gives 1572864. *)
Lemma guessSafeChunkSize_eleven_entries :
  (11 ≤ length (site_entries 11 1024))%nat ∧
  ∃ c, guessSafeChunkSize 22 (site_entries 11 1024) = Some (Num c) ∧
       c = TARGET_BYTES / maxObservedSize (site_entries 11 1024).
Proof.
  assert (11 ≤ length (site_entries 11 1024))%nat as H by (vm_compute; lia).
  split; [exact H|].
  destruct (guessSafeChunkSize_target site_serialize_length 22
              (site_entries 11 1024) H ltac:(lia)) as (c & Hc & Hq & _).
  exists c. by split.
Defined.

Example guessSafeChunkSize_eleven_entries_value :
  guessSafeChunkSize 22 (site_entries 11 1024) = Some (Num 157286400) ∧
  1610612736 / 1024 = 1572864.
Proof. by vm_compute. Qed.

Lemma guessSafeChunkSize_21_entries :
  (11 ≤ length (site_entries 21 1024))%nat ∧
  sampleIndices 21 = seqZ 0 21 ∧
  guessSafeChunkSize 22 (site_entries 21 1024) =
    Some (Math_floor_div TARGET_BYTES (maxObservedSize (site_entries 21 1024))).
Proof.
  assert (11 ≤ length (site_entries 21 1024))%nat as H by (vm_compute; lia).
  split; [exact H|]. split; [vm_compute; reflexivity|].
  exact (proj1 (proj2 (guessSafeChunkSize_returns_from_11 22
                         (site_entries 21 1024) H ltac:(lia)))).
Defined.

(** A state of one entry. *)
Lemma writeToCache_one_entry :
  nodes (site_state 1 1024) = Some (site_entries 1 1024) ∧
  (writeToCache 1000 (site_state 1 1024) stale_disk).1.1 = Diverged.
Proof.
  split; [reflexivity|].
  apply (writeToCache_diverges_below_11 site_alphasort_perm 1000
           (site_state 1 1024) (site_entries 1 1024) stale_disk eq_refl).
  vm_compute; lia.
Defined.

(** The order at a state of 12 entries: the chunk file is written after
    the nodes have been put back. *)
Lemma writeToCache_reattaches_before_chunks :
  step_of <$> events_since stale_disk
                (writeToCache 30 (site_state 12 1024) stale_disk).2 =
    [RemoveStale; Detach; WriteCore; Reattach; Estimate; WriteChunk] ∧
  in_phases reattach_last
    (events_since stale_disk
       (writeToCache 30 (site_state 12 1024) stale_disk).2) = false.
Proof. by vm_compute. Qed.

Example reattach_last_admits :
  in_phases reattach_last
    [Unlink (chunkFile 0);
     SetNodes None;
     WriteFile file VUndefined;
     CallGuessSafeChunkSize [];
     WriteFile (chunkFile 0) VUndefined;
     SetNodes (Some [])] = true.
Proof. by vm_compute. Qed.

(** An empty [Map]: the estimator is called with no entries. *)
Lemma writeToCache_estimates_empty_map :
  ¬ skips_estimator 0 (site_state 0 1024) fresh_disk.
Proof. intros [Hcall _]. apply Hcall. vm_compute. left. Qed.

Lemma writeToCache_empty_map :
  nodes (site_state 0 1024) = Some [] ∧
  (writeToCache 0 (site_state 0 1024) stale_disk).1.1 = Returned () ∧
  globSync chunkFilePrefix
    (writeToCache 0 (site_state 0 1024) stale_disk).2 = [] ∧
  estimator_calls
    (events_since stale_disk
       (writeToCache 0 (site_state 0 1024) stale_disk).2) = [[]].
Proof.
  split; [reflexivity|].
  destruct (writeToCache_without_entries site_alphasort_perm 0
              (site_state 0 1024) stale_disk (or_intror eq_refl))
    as (Hret & _ & Hglob & _ & Hcalls).
  split; [exact Hret|]. split; [exact Hglob|]. exact (proj1 (Hcalls eq_refl)).
Defined.

(** 160 entries at 75 to a chunk: three chunk files. *)
Lemma writeToCache_three_chunks :
  guessSafeChunkSize 22 (site_entries 160 kMaxLength) = Some (Num 75) ∧
  ∃ (count : Z) (w' : World Z (JsValue Z string)),
    Math_ceil_div 160 (Num 75) = Num count ∧
    writeToCache 22 (site_state 160 kMaxLength) stale_disk =
      (Returned (), site_state 160 kMaxLength, w') ∧
    chunk_writes (events_since stale_disk w') =
      chunkFile <$> seqZ 0 count.
Proof.
  assert (guessSafeChunkSize 22 (site_entries 160 kMaxLength) =
          Some (Num 75)) as Hg by (vm_compute; reflexivity).
  split; [exact Hg|].
  destruct (writeToCache_chunk_files site_alphasort_perm
              site_serialize_length 22 (site_state 160 kMaxLength)
              (site_entries 160 kMaxLength) (Num 75) stale_disk eq_refl Hg)
    as (count & w' & Hceil & Hcount & Hrun & Hwrites & _).
  exists count, w'. split; [exact Hceil|]. split; [|exact Hwrites].
  apply Hrun; [lia|]. vm_compute in Hceil. injection Hceil as <-. lia.
Defined.

Example writeToCache_three_chunks_files :
  chunk_writes
    (events_since stale_disk
       (writeToCache 22 (site_state 160 kMaxLength) stale_disk).2) =
    [chunkFile 0; chunkFile 1; chunkFile 2] ∧
  (λ f,
     match
       readChunk (writeToCache 22 (site_state 160 kMaxLength) stale_disk).2 f
     with
     | Returned chunk => length chunk
     | _ => 0%nat
     end) <$> [chunkFile 0; chunkFile 1; chunkFile 2; chunkFile 7] =
    [75; 75; 10; 0]%nat.
Proof. by vm_compute. Qed.

(** A cache file of another directory is left as it is. *)
Lemma writeToCache_keeps_other_files :
  is_literal CWD = true ∧
  "/other/.cache/redux.state" ≠ file ∧
  disk (writeToCache 22 (site_state 12 kMaxLength) stale_disk).2
    !! "/other/.cache/redux.state" =
  disk stale_disk !! "/other/.cache/redux.state".
Proof.
  assert ("/other/.cache/redux.state" ≠ file) as Hne by (vm_compute; discriminate).
  split; [reflexivity|]. split; [exact Hne|].
  apply (writeToCache_frame site_alphasort_perm 22 (site_state 12 kMaxLength)
           stale_disk "/other/.cache/redux.state" eq_refl Hne).
  vm_compute; reflexivity.
Defined.

(** 160 entries, then 12 at 75 to a chunk: one chunk file is left. *)
Example writeToCache_shrinking_state_files :
  globSync chunkFilePrefix
    (writeToCache 22 (site_state 12 kMaxLength)
       (writeToCache 22 (site_state 160 kMaxLength) stale_disk).2).2 =
  [chunkFile 0].
Proof. by vm_compute. Qed.

(** 12 entries: the chunk file holds entries. *)
Lemma chunk_files_of_twelve_entries :
  nodes (site_state 12 kMaxLength) = Some (site_entries 12 kMaxLength) ∧
  site_entries 12 kMaxLength ≠ [] ∧
  ∀ f, f ∈ globSync chunkFilePrefix
             (writeToCache 22 (site_state 12 kMaxLength) stale_disk).2 →
    ∃ chunk,
      disk (writeToCache 22 (site_state 12 kMaxLength) stale_disk).2 !! f =
        Some (VEntries chunk) ∧
      chunk ≠ [].
Proof.
  assert (site_entries 12 kMaxLength ≠ []) as Hne.
  { intros H. apply (f_equal length) in H. vm_compute in H. discriminate H. }
  split; [reflexivity|]. split; [exact Hne|].
  apply (chunk_files_hold_entries site_alphasort_perm
           site_deserialize_serialize site_serialize_length 22
           (site_state 12 kMaxLength) (site_entries 12 kMaxLength) stale_disk
           eq_refl Hne).
Defined.


Example readFromCache_overlapping :
  globSync chunkFilePrefix overlapping_disk = [chunkFile 0; chunkFile 1] ∧
  readFromCache overlapping_disk =
    Returned {| nodes := Some [("a", 3); ("b", 2)]; rest := "COMPLETED" |}.
Proof. by vm_compute. Qed.

(** ** More of the site *)

(** The paths of the site, and a working directory that [glob] would read
    as a pattern. *)
Lemma cache_paths_at_site :
  is_literal CWD = true ∧
  (file ∉ globSync chunkFilePrefix stale_disk) ∧
  (chunkFile 7 ∈ globSync chunkFilePrefix stale_disk).
Proof.
  destruct (cache_paths_distinct site_alphasort_perm eq_refl)
    as (_ & _ & Hcore & Hchunk & _).
  split; [reflexivity|]. split; [apply Hcore|].
  apply Hchunk; [lia|]. exists (VEntries [("old", 1)]). vm_compute; reflexivity.
Defined.

Example is_literal_examples :
  is_literal "/home/me/site" = true ∧ is_literal "/home/me/site[1]" = false ∧
  is_literal "/home/me/{a,b}" = false ∧ is_literal "/home/me/what?" = false.
Proof. by vm_compute. Qed.

(** Reading an empty disk, and a disk with two chunk files. *)
Lemma readFromCache_missing_core :
  is_literal CWD = true ∧
  disk fresh_disk !! file = None ∧
  readFromCache fresh_disk = Threw (ENOENT file) ∧
  ∃ obj, readFromCache two_chunk_disk = Returned obj.
Proof.
  destruct (readFromCache_outcomes site_alphasort_perm fresh_disk eq_refl)
    as (_ & _ & Hmissing & _).
  destruct (readFromCache_outcomes site_alphasort_perm two_chunk_disk eq_refl)
    as (Hret & _).
  assert (disk fresh_disk !! file = None) as Hnone by (vm_compute; reflexivity).
  split; [reflexivity|]. split; [exact Hnone|]. split; [exact (Hmissing Hnone)|].
  apply Hret.
  - exists (VState site_core), site_core. split; [vm_compute; reflexivity|reflexivity].
  - intros f Hf.
    assert (globSync chunkFilePrefix two_chunk_disk =
            [chunkFile 0; chunkFile 1]) as Hglob by (vm_compute; reflexivity).
    rewrite Hglob in Hf.
    apply elem_of_cons in Hf as [->|Hf];
      [|apply list_elem_of_singleton in Hf as ->].
    + exists (VEntries [("a", 1); ("b", 2)]), [("a", 1); ("b", 2)].
      split; [vm_compute; reflexivity|reflexivity].
    + exists (VEntries [("c", 3)]), [("c", 3)].
      split; [vm_compute; reflexivity|reflexivity].
Defined.

(** A chunk file that decodes to [undefined]: the embedding does not say
    what the code does with it. *)
Example readFromCache_broken_chunk :
  readFromCache broken_chunk_disk = IllTyped.
Proof. by vm_compute. Qed.

(** A state without nodes, written over the stale disk. *)
Lemma write_then_read_site_without_nodes :
  is_literal CWD = true ∧
  nodes site_state_without_nodes = None ∧
  estimator_calls
    (events_since stale_disk
       (writeToCache 0 site_state_without_nodes stale_disk).2) = [] ∧
  readFromCache (writeToCache 0 site_state_without_nodes stale_disk).2 =
    Returned site_state_without_nodes.
Proof.
  split; [reflexivity|]. split; [reflexivity|].
  destruct (write_then_read_without_nodes site_alphasort_perm
              site_deserialize_serialize 0 site_state_without_nodes stale_disk
              eq_refl eq_refl (site_buffers_fit _))
    as (_ & Hcalls & _ & _ & Hread).
  split; [exact Hcalls|exact Hread].
Defined.

(** 12 entries after 160, and 12 entries alone. *)
Lemma writeToCache_after_larger_state :
  is_literal CWD = true ∧
  disk (writeToCache 22 (site_state 12 kMaxLength)
          (writeToCache 22 (site_state 160 kMaxLength) stale_disk).2).2 =
  disk (writeToCache 22 (site_state 12 kMaxLength) stale_disk).2.
Proof.
  split; [reflexivity|].
  exact (proj1 (proj2 (proj1 (writeToCache_forgets_history site_alphasort_perm
                                22 22 (site_state 160 kMaxLength)
                                (site_state 12 kMaxLength) stale_disk
                                eq_refl)))).
Defined.

(** The estimate of 22 entries of 1 KiB is the same with a 2 GiB entry at
    index 1, which the stride of 2 passes over. *)
Lemma guessSafeChunkSize_passes_over_outlier :
  length (site_entries 22 1024) = length site_entries_with_outlier ∧
  guessSafeChunkSize 22 (site_entries 22 1024) =
    guessSafeChunkSize 22 site_entries_with_outlier.
Proof.
  assert (length (site_entries 22 1024) = length site_entries_with_outlier)
    as Hlen by (vm_compute; reflexivity).
  split; [exact Hlen|].
  apply (guessSafeChunkSize_ignores_unsampled 22 (site_entries 22 1024)
           site_entries_with_outlier Hlen).
  intros k Hk. unfold site_entries_with_outlier.
  rewrite list_lookup_insert_ne; [reflexivity|].
  assert (Z.of_nat (length (site_entries 22 1024)) / 11 = 2) as ->
    by (vm_compute; reflexivity).
  lia.
Defined.

Example guessSafeChunkSize_outlier_value :
  guessSafeChunkSize 22 site_entries_with_outlier = Some (Num 157286400) ∧
  encodedSize <$> take 3 site_entries_with_outlier = [1024; kMaxLength; 1024].
Proof. by vm_compute. Qed.

(** Five entries: the call does not return, and the disk reads back
    without nodes. *)
Example partial_write_of_five_entries_value :
  readFromCache (writeToCache 50 (site_state 5 1024) stale_disk).2 =
    Returned {| nodes := None; rest := "COMPLETED" |}.
Proof. by vm_compute. Qed.

Lemma site_descending_perm (l : list string) : reverse (alphasort l) ≡ₚ l.
Proof. rewrite reverse_Permutation. apply site_alphasort_perm. Qed.

(** Two chunk files without a common key, read in ascending and in
    descending order. *)
Lemma readFromCache_descending :
  NoDup (concat [[("a", 1); ("b", 2)]; [("c", 3 : Z)]]).*1 ∧
  ∃ obj obj',
    readFromCache two_chunk_disk = Returned obj ∧
    readFromCache (RT := with_alphasort (λ l, reverse (alphasort l)))
      two_chunk_disk = Returned obj' ∧
    JsMap.view (default [] (nodes obj')) = JsMap.view (default [] (nodes obj)).
Proof.
  assert (NoDup (concat [[("a", 1); ("b", 2)]; [("c", 3 : Z)]]).*1) as Hnd.
  { apply (bool_decide_unpack _). vm_compute. exact I. }
  split; [exact Hnd|].
  assert (disk two_chunk_disk !! file = Some (VState site_core)) as Hfile
    by (vm_compute; reflexivity).
  assert (mapOutcome (readChunk two_chunk_disk)
            (globSync chunkFilePrefix two_chunk_disk) =
          Returned [[("a", 1); ("b", 2)]; [("c", 3)]]) as Hchunks
    by (vm_compute; reflexivity).
  destruct (readFromCache_any_order (λ l, reverse (alphasort l))
              site_alphasort_perm
              site_descending_perm
              two_chunk_disk (VState site_core) site_core _ Hfile eq_refl
              Hchunks Hnd)
    as (obj & obj' & Hread & Hread' & _ & _ & Hview).
  exists obj, obj'. split; [exact Hread|]. split; [exact Hread'|exact Hview].
Defined.

Example readFromCache_descending_value :
  readFromCache (RT := with_alphasort (λ l, reverse (alphasort l)))
    two_chunk_disk =
    Returned {| nodes := Some [("c", 3); ("a", 1); ("b", 2)]; rest := "COMPLETED" |} ∧
  readFromCache two_chunk_disk =
    Returned {| nodes := Some [("a", 1); ("b", 2); ("c", 3)]; rest := "COMPLETED" |}.
Proof. by vm_compute. Qed.

(** With a key in two chunk files the order of reading does matter. *)
Example readFromCache_descending_overlapping :
  readFromCache (RT := with_alphasort (λ l, reverse (alphasort l)))
    overlapping_disk =
    Returned {| nodes := Some [("a", 1); ("b", 2)]; rest := "COMPLETED" |} ∧
  readFromCache overlapping_disk =
    Returned {| nodes := Some [("a", 3); ("b", 2)]; rest := "COMPLETED" |}.
Proof. by vm_compute. Qed.

(** 22 entries of 1 KiB: a chunk of them stays within the target. *)
Lemma chunk_sizes_of_22_entries :
  guessSafeChunkSize 22 (site_entries 22 1024) = Some (Num 157286400) ∧
  sumSizes (chunkSlice (site_entries 22 1024) 0 (Num 157286400)) ≤ TARGET_BYTES.
Proof.
  assert (guessSafeChunkSize 22 (site_entries 22 1024) = Some (Num 157286400))
    as Hg by (vm_compute; reflexivity).
  split; [exact Hg|].
  apply (chunk_sizes_within_target 22 (site_entries 22 1024) 157286400 0 Hg);
    [|lia].
  intros e He.
  assert (maxObservedSize (site_entries 22 1024) = 1024) as ->
    by (vm_compute; reflexivity).
  unfold site_entries in He. apply list_elem_of_fmap in He as (k & -> & _).
  vm_compute. discriminate.
Defined.
